(** * The Sunkist tilt game ([src/game.js]) as a shallow embedding

    The game keeps one [SunkistGame] object (the global [currentGame]) whose
    methods run as browser callbacks.  The embedding follows the source
    method by method:

    - JavaScript numbers that hold angles ([rotation], [speed], the tilt
      samples) are the rationals that doubles stand for: a sum or a
      difference is the exact result rounded to the nearest number with a
      53-bit significand, ties to even ([Js.round]); [%] is the truncating
      remainder of JavaScript, which is exact.  The exponent is not
      bounded: there is no overflow to [Infinity] and no subnormal range,
      and no [NaN].  [round_agrees_with_binary64] compares the rounding
      with the binary64 arithmetic of the machine on the numbers of the
      game.  Counters and clock readings ([lives], [points], [Date.now()])
      are integers [Z], far below 2^53.
    - every method is a function on the pair of the object ([Game]) and the
      part of the browser it touches ([Browser]: the DOM nodes it writes, the
      [deviceorientation] listeners of [window] and the pending animation
      frames);
    - the page as a whole is a [World] moved by [Event]s, from which the
      reachable states are defined.

    [blinkBeam] and [navigator.vibrate] only produce feedback: they write the
    beam colour and [isBlinking], which no other method reads, and are left
    out of [Game] and [Browser].  They are modelled on their own, as [Blink]
    and [Feedback]. *)

From Stdlib Require Floats.
From Stdlib Require Import String ZArith QArith Qround Qpower Qabs List Bool Lia
  Lqa.
Import ListNotations.
Open Scope Q_scope.

(** ** Numbers *)

Module Js.

(** [Math.trunc] on an exact number: rounding towards zero. *)
Definition trunc (x : Q) : Z := Z.quot (Qnum x) (Zpos (Qden x)).

(** [x % y] keeps the sign of [x]: [x - y * trunc (x / y)]. *)
Definition rem (x y : Q) : Q := x - y * inject_Z (trunc (x / y)).

(** [2^e] *)
Definition pow2 (e : Z) : Q := 2 ^ e.

(** The binary exponent of a positive number: [2^e <= x < 2^(e+1)]. *)
Definition ilog2 (x : Q) : Z :=
  let e := (Z.log2 (Qnum x) - Z.log2 (Zpos (Qden x)))%Z in
  if Qle_bool (pow2 e) x then e else (e - 1)%Z.

(** The nearest integer, ties to even. *)
Definition rne (x : Q) : Z :=
  let f := Qfloor x in
  match Qcompare (x - inject_Z f) (1 # 2) with
  | Lt => f
  | Gt => (f + 1)%Z
  | Eq => if Z.even f then f else (f + 1)%Z
  end.

(** A positive number rounded to 53 significant bits. *)
Definition roundPos (x : Q) : Q :=
  let q := pow2 (ilog2 x - 52) in
  inject_Z (rne (x / q)) * q.

(** The double nearest to [x]: what a literal and the result of an
    arithmetic operation are rounded to. *)
Definition round (x : Q) : Q :=
  let x := Qred x in
  match Qcompare x 0 with
  | Eq => 0
  | Gt => Qred (roundPos x)
  | Lt => Qred (- roundPos (- x))
  end.

(** [x + y] and [x - y] on doubles. *)
Definition add (x y : Q) : Q := round (x + y).
Definition sub (x y : Q) : Q := round (x - y).

(** The numbers a JavaScript variable can hold. *)
Definition isDouble (x : Q) : Prop := round x == x.

(** The number a binary64 value of the machine stands for, if it is finite:
    the yardstick [round] is checked against. *)
Definition ofFloat (f : PrimFloat.float) : option Q :=
  match FloatOps.Prim2SF f with
  | SpecFloat.S754_zero _ => Some 0
  | SpecFloat.S754_finite s m e =>
      let v := inject_Z (Zpos m) * pow2 e in
      Some (Qred (if s then - v else v))
  | _ => None
  end.

(** What [e.beta] can hold when the handler runs. *)
Inductive Value :=
| Null
| Undefined
| Num (x : Q).

(** [!v]: true on the falsy values. *)
Definition lnot (v : Value) : bool :=
  match v with
  | Null | Undefined => true
  | Num x => Qeq_bool x 0
  end.

(** [v !== 0] *)
Definition strictNeq0 (v : Value) : bool :=
  match v with
  | Null | Undefined => true
  | Num x => negb (Qeq_bool x 0)
  end.

End Js.

Arguments Js.round : simpl never.
Arguments Js.add : simpl never.
Arguments Js.sub : simpl never.

Definition Qltb (x y : Q) : bool := negb (Qle_bool y x).

(** ** The object and the browser *)

(** What [messageElement.innerHTML] shows. *)
Inductive Message :=
| Welcome
| GoodJob
| StillThirsty.

(** The headline (the [h2]) of each message. *)
Definition headline (m : Message) : string :=
  match m with
  | Welcome => "Ready to have a sip of Sunkist?"
  | GoodJob => "Good job!"
  | StillThirsty => "You still look thirsty, have another try!"
  end.

(** Only [GoodJob] carries the line [code: winner]. *)
Definition showsWinnerCode (m : Message) : bool :=
  match m with
  | GoodJob => true
  | _ => false
  end.

(** The fields of a [SunkistGame].  [self] stands for the identity of the
    object, which is the identity of its bound [handleMotion]. *)
Record Game := mkGame {
  self : nat;
  rotation : Q;
  speed : Q;
  lives : Z;
  points : Z;
  isGameOver : bool;
  lastTiltTime : Z;
  lastBeta : option Q;
  recentBetas : list Q;
  animationFrameId : option positive
}.

(** The browser state the methods read and write. *)
Record Browser := mkBrowser {
  transform : Q;               (* canContainer: rotate(<deg>) *)
  livesText : Z;               (* 'Lives: <n>' *)
  pointsText : Z;              (* 'Points: <n>' *)
  messageHTML : Message;
  messageShown : bool;         (* display 'block' / 'none' *)
  orientationListeners : list nat;
  frameRequests : list (positive * nat);
  nextFrame : positive
}.

Definition St : Type := Game * Browser.

Definition set_rotation (v : Q) (g : Game) : Game :=
  mkGame (self g) v (speed g) (lives g) (points g) (isGameOver g)
         (lastTiltTime g) (lastBeta g) (recentBetas g) (animationFrameId g).
Definition set_speed (v : Q) (g : Game) : Game :=
  mkGame (self g) (rotation g) v (lives g) (points g) (isGameOver g)
         (lastTiltTime g) (lastBeta g) (recentBetas g) (animationFrameId g).
Definition set_lives (v : Z) (g : Game) : Game :=
  mkGame (self g) (rotation g) (speed g) v (points g) (isGameOver g)
         (lastTiltTime g) (lastBeta g) (recentBetas g) (animationFrameId g).
Definition set_points (v : Z) (g : Game) : Game :=
  mkGame (self g) (rotation g) (speed g) (lives g) v (isGameOver g)
         (lastTiltTime g) (lastBeta g) (recentBetas g) (animationFrameId g).
Definition set_isGameOver (v : bool) (g : Game) : Game :=
  mkGame (self g) (rotation g) (speed g) (lives g) (points g) v
         (lastTiltTime g) (lastBeta g) (recentBetas g) (animationFrameId g).
Definition set_lastTiltTime (v : Z) (g : Game) : Game :=
  mkGame (self g) (rotation g) (speed g) (lives g) (points g) (isGameOver g)
         v (lastBeta g) (recentBetas g) (animationFrameId g).
Definition set_recentBetas (v : list Q) (g : Game) : Game :=
  mkGame (self g) (rotation g) (speed g) (lives g) (points g) (isGameOver g)
         (lastTiltTime g) (lastBeta g) v (animationFrameId g).
Definition set_animationFrameId (v : option positive) (g : Game) : Game :=
  mkGame (self g) (rotation g) (speed g) (lives g) (points g) (isGameOver g)
         (lastTiltTime g) (lastBeta g) (recentBetas g) v.

Definition set_transform (v : Q) (b : Browser) : Browser :=
  mkBrowser v (livesText b) (pointsText b) (messageHTML b) (messageShown b)
            (orientationListeners b) (frameRequests b) (nextFrame b).
Definition set_livesText (v : Z) (b : Browser) : Browser :=
  mkBrowser (transform b) v (pointsText b) (messageHTML b) (messageShown b)
            (orientationListeners b) (frameRequests b) (nextFrame b).
Definition set_pointsText (v : Z) (b : Browser) : Browser :=
  mkBrowser (transform b) (livesText b) v (messageHTML b) (messageShown b)
            (orientationListeners b) (frameRequests b) (nextFrame b).
Definition set_messageHTML (v : Message) (b : Browser) : Browser :=
  mkBrowser (transform b) (livesText b) (pointsText b) v (messageShown b)
            (orientationListeners b) (frameRequests b) (nextFrame b).
Definition set_messageShown (v : bool) (b : Browser) : Browser :=
  mkBrowser (transform b) (livesText b) (pointsText b) (messageHTML b) v
            (orientationListeners b) (frameRequests b) (nextFrame b).
Definition set_orientationListeners (v : list nat) (b : Browser) : Browser :=
  mkBrowser (transform b) (livesText b) (pointsText b) (messageHTML b)
            (messageShown b) v (frameRequests b) (nextFrame b).

(** *** Browser primitives *)

(** [window.removeEventListener('deviceorientation', h)] *)
Definition removeEventListener (h : nat) (b : Browser) : Browser :=
  set_orientationListeners
    (filter (fun k => negb (Nat.eqb k h)) (orientationListeners b)) b.

(** [window.addEventListener('deviceorientation', h)]: a listener that is
    already registered is not added a second time. *)
Definition addEventListener (h : nat) (b : Browser) : Browser :=
  if existsb (Nat.eqb h) (orientationListeners b) then b
  else set_orientationListeners (orientationListeners b ++ [h]) b.

(** [cancelAnimationFrame(id)] *)
Definition cancelAnimationFrame (id : positive) (b : Browser) : Browser :=
  mkBrowser (transform b) (livesText b) (pointsText b) (messageHTML b)
            (messageShown b) (orientationListeners b)
            (filter (fun r => negb (Pos.eqb (fst r) id)) (frameRequests b))
            (nextFrame b).

(** [requestAnimationFrame(() => owner.gameLoop())]: the new handle and the
    browser with the request queued. *)
Definition requestAnimationFrame (owner : nat) (b : Browser)
  : positive * Browser :=
  (nextFrame b,
   mkBrowser (transform b) (livesText b) (pointsText b) (messageHTML b)
             (messageShown b) (orientationListeners b)
             (frameRequests b ++ [(nextFrame b, owner)])
             (Pos.succ (nextFrame b))).

(** ** The methods of [SunkistGame] *)

Definition showWelcomeMessage (s : St) : St :=
  let '(g, b) := s in
  (g, set_messageShown true (set_messageHTML Welcome b)).

Definition initializeGame (s : St) : St :=
  let '(g, b) := s in
  let g := mkGame (self g) 0 4 3 0 false 0 None [] None in
  let b := set_transform 0 b in
  let b := set_livesText 3 b in
  let b := set_pointsText 0 b in
  showWelcomeMessage (g, b).

(** [new SunkistGame()]: a fresh object, initialised. *)
Definition construct (id : nat) (b : Browser) : St :=
  initializeGame (mkGame id 0 0 0 0 false 0 None [] None, b).

Definition cleanup (s : St) : St :=
  let '(g, b) := s in
  let b := removeEventListener (self g) b in
  let '(g, b) :=
    match animationFrameId g with
    | Some id => (set_animationFrameId None g, cancelAnimationFrame id b)
    | None => (g, b)
    end in
  let g := set_isGameOver true g in
  let g := set_rotation 0 g in
  let g := set_speed 4 g in
  (g, set_transform 0 b).

Definition endGame (s : St) : St :=
  let '(g, b) := cleanup s in
  let message := if (12 <? points g)%Z then GoodJob else StillThirsty in
  (g, set_messageShown true (set_messageHTML message b)).

(** [((rotation % 360) + 360) % 360] *)
Definition normalizedRotation (r : Q) : Q :=
  Js.rem (Js.add (Js.rem r 360) 360) 360.

Definition isInTargetZone (r : Q) : bool :=
  Qle_bool 335 (normalizedRotation r) || Qle_bool (normalizedRotation r) 25.

Definition checkHit (s : St) : St :=
  let '(g, b) := s in
  if isInTargetZone (rotation g) then
    let g := set_points (points g + 1)%Z g in
    let b := set_pointsText (points g) b in
    if (Z.rem (points g) 5 =? 0)%Z
    then (set_speed (Js.add (speed g) (Js.round 0.7)) g, b)
    else (g, b)
  else
    let g := set_lives (lives g - 1)%Z g in
    let b := set_livesText (lives g) b in
    if (lives g <=? 0)%Z then endGame (g, b) else (g, b).

(** [recentBetas.push(x); if (recentBetas.length > 3) recentBetas.shift()] *)
Definition pushBeta (x : Q) (w : list Q) : list Q :=
  let w := w ++ [x] in
  if (3 <? length w)%nat then tl w else w.

(** [length >= 2 ? recentBetas[length - 1] - recentBetas[0] : 0] *)
Definition movement (w : list Q) : Q :=
  if (2 <=? length w)%nat then Js.sub (last w 0) (hd 0 w) else 0.

(** [handleMotion(e)].  [now1] and [now2] are the two readings of
    [Date.now()], the first in the test and the second in the stamp. *)
Definition handleMotion (beta : Js.Value) (now1 now2 : Z) (s : St) : St :=
  let '(g, b) := s in
  if Js.lnot beta && Js.strictNeq0 beta then s
  else
    match beta with
    | Js.Num x =>
        let g := set_recentBetas (pushBeta x (recentBetas g)) g in
        if Qltb 8 (movement (recentBetas g))
           && (200 <? now1 - lastTiltTime g)%Z
        then
          let '(g, b) := checkHit (g, b) in
          (set_lastTiltTime now2 g, b)
        else (g, b)
    | _ => s
    end.

Definition gameLoop (s : St) : St :=
  let '(g, b) := s in
  let '(g, b) :=
    match animationFrameId g with
    | Some id => (set_animationFrameId None g, cancelAnimationFrame id b)
    | None => (g, b)
    end in
  if isGameOver g then (g, b)
  else
    let g := set_rotation (Js.rem (Js.add (rotation g) (speed g)) 360) g in
    let b := set_transform (rotation g) b in
    let '(id, b) := requestAnimationFrame (self g) b in
    (set_animationFrameId (Some id) g, b).

Definition start (s : St) : St :=
  let '(g, b) := s in
  let '(g, b) :=
    match animationFrameId g with
    | Some id => (set_animationFrameId None g, cancelAnimationFrame id b)
    | None => (g, b)
    end in
  let g := set_lives 3 g in
  let g := set_points 0 g in
  let g := set_isGameOver false g in
  let g := set_rotation 0 g in
  let g := set_speed 4 g in
  let b := set_livesText 3 b in
  let b := set_pointsText 0 b in
  let b := set_transform 0 b in
  let b := removeEventListener (self g) b in
  let b := addEventListener (self g) b in
  gameLoop (g, b).

(** ** The page *)

(** The globals of the script and the browser: [currentGame], and whether the
    one-shot [click] and [touchstart] listeners for [startGame] are still
    registered on [document].  [nextGame] is the identity the next
    [new SunkistGame()] gets. *)
Record World := mkWorld {
  currentGame : option Game;
  page : Browser;
  clickArmed : bool;
  touchArmed : bool;
  nextGame : nat
}.

(** How the permission step of [startGame] ends. *)
Inductive Permission :=
| NotRequired      (* requestPermission is not a function *)
| Granted
| Refused          (* resolved with something else than 'granted' *)
| Failed.          (* the request threw *)

Definition mayStart (p : Permission) : bool :=
  match p with
  | NotRequired | Granted => true
  | Refused | Failed => false
  end.

(** [startGame()] *)
Definition startGame (p : Permission) (w : World) : World :=
  if mayStart p then
    match currentGame w with
    | Some g =>
        let '(g, b) := start (g, set_messageShown false (page w)) in
        mkWorld (Some g) b (clickArmed w) (touchArmed w) (nextGame w)
    | None => w
    end
  else w.

(** [restartGame()] *)
Definition restartGame (w : World) : World :=
  let b :=
    match currentGame w with
    | Some g => snd (cleanup (g, page w))
    | None => page w
    end in
  let '(g, b) := construct (nextGame w) b in
  mkWorld (Some g) b true true (S (nextGame w)).

(** The page before the script has run. *)
Definition blankPage : Browser :=
  mkBrowser 0 0 0 Welcome false [] [] 1%positive.

(** The [load] handler, run once on the blank page. *)
Definition loaded : World :=
  let '(g, b) := construct 0%nat blankPage in
  mkWorld (Some g) b true true 1%nat.

(** What the browser can deliver to the page.  [Click] and [TouchStart] reach
    the listeners on [document]; [PlayAgain] is the [onclick] of the button
    that [endGame] shows.  A click on that button that goes on to [document]
    is [PlayAgain] followed by [Click]. *)
Inductive Event :=
| Click (p : Permission)
| TouchStart (p : Permission)
| PlayAgain
| DeviceOrientation (beta : Js.Value) (now1 now2 : Z)
| AnimationFrame (id : positive).

Definition isListening (g : Game) (b : Browser) : bool :=
  existsb (Nat.eqb (self g)) (orientationListeners b).

Definition step (e : Event) (w : World) : World :=
  match e with
  | Click p =>
      if clickArmed w then
        startGame p (mkWorld (currentGame w) (page w) false (touchArmed w)
                             (nextGame w))
      else w
  | TouchStart p =>
      if touchArmed w then
        startGame p (mkWorld (currentGame w) (page w) (clickArmed w) false
                             (nextGame w))
      else w
  | PlayAgain => restartGame w
  | DeviceOrientation beta now1 now2 =>
      match currentGame w with
      | Some g =>
          if isListening g (page w) then
            let '(g, b) := handleMotion beta now1 now2 (g, page w) in
            mkWorld (Some g) b (clickArmed w) (touchArmed w) (nextGame w)
          else w
      | None => w
      end
  | AnimationFrame id =>
      match find (fun r => Pos.eqb (fst r) id) (frameRequests (page w)) with
      | Some (_, owner) =>
          let b := cancelAnimationFrame id (page w) in
          match currentGame w with
          | Some g =>
              if Nat.eqb (self g) owner then
                let '(g, b) := gameLoop (g, b) in
                mkWorld (Some g) b (clickArmed w) (touchArmed w) (nextGame w)
              else mkWorld (currentGame w) b (clickArmed w) (touchArmed w)
                           (nextGame w)
          | None => mkWorld (currentGame w) b (clickArmed w) (touchArmed w)
                            (nextGame w)
          end
      | None => w
      end
  end.

Definition run (es : list Event) (w : World) : World :=
  fold_left (fun w e => step e w) es w.

(** The worlds the page can be in. *)
Inductive reachable : World -> Prop :=
| reachable_loaded : reachable loaded
| reachable_step e w : reachable w -> reachable (step e w).

(** ** Callbacks of one running game *)

(** While a game runs, its object is entered by the frame callback and by the
    orientation handler. *)
Inductive Callback :=
| Tick
| Tilt (beta : Js.Value) (now1 now2 : Z).

Definition call (c : Callback) (s : St) : St :=
  match c with
  | Tick => gameLoop s
  | Tilt beta now1 now2 => handleMotion beta now1 now2 s
  end.

Definition calls (cs : list Callback) (s : St) : St :=
  fold_left (fun s c => call c s) cs s.

(** The speeds by which the ticks among [cs] advance the rotation. *)
Fixpoint tickSpeeds (cs : list Callback) (s : St) : list Q :=
  match cs with
  | [] => []
  | c :: cs' =>
      match c with
      | Tick => if isGameOver (fst s) then [] else [speed (fst s)]
      | Tilt _ _ _ => []
      end ++ tickSpeeds cs' (call c s)
  end.

Definition Qsum (l : list Q) : Q := fold_right Qplus 0 l.

(** The same sum as a loop [for (v of l) sum += v] computes it. *)
Definition sumOf (l : list Q) : Q := fold_left Js.add l 0.

(** A whole number from 0 to 2^52. *)
Definition whole (v : Q) : bool :=
  Qeq_bool (inject_Z (Qfloor v)) v
  && Qle_bool 0 v && Qle_bool v (inject_Z (2 ^ 52)).

(** The speed after [k] runs of [this.speed += 0.7] on the base speed. *)
Fixpoint levelSpeed (k : nat) : Q :=
  match k with
  | O => 4
  | S k' => Js.add (levelSpeed k') (Js.round 0.7)
  end.

Definition ticks (n : nat) (s : St) : St := Nat.iter n gameLoop s.

(** ** Vocabulary of the statements *)

(** [checkHit] ran in the call of [handleMotion] that led from [s] to [s']:
    [handleMotion] writes [points] and [lives] nowhere else, and [checkHit]
    always changes one of them. *)
Definition evaluated (s s' : St) : Prop :=
  points (fst s') <> points (fst s) \/ lives (fst s') <> lives (fst s).

Definition wasHit (s s' : St) : Prop :=
  points (fst s') = (points (fst s) + 1)%Z /\ lives (fst s') = lives (fst s).

Definition wasMiss (s s' : St) : Prop :=
  lives (fst s') = (lives (fst s) - 1)%Z /\ points (fst s') = points (fst s).

(** A hit that brings the points to a multiple of 5. *)
Definition speedsUp (s s' : St) : Prop :=
  wasHit s s' /\ Z.rem (points (fst s')) 5 = 0%Z.

(** The last [n] elements of a list, in order. *)
Definition lastn {A} (n : nat) (l : list A) : list A :=
  skipn (length l - n) l.

(** The samples among [cs] that [handleMotion] lets in, in arrival order. *)
Fixpoint samples (cs : list Callback) : list Q :=
  match cs with
  | [] => []
  | Tilt (Js.Num x) _ _ :: cs' => x :: samples cs'
  | _ :: cs' => samples cs'
  end.

(** What holds of the game in every reachable world. *)
Record GameInv (g : Game) (b : Browser) : Prop := {
  inv_rotation_lo : 0 <= rotation g;
  inv_rotation_hi : rotation g < 360;
  inv_speed : 4 <= speed g;
  inv_lives : (0 <= lives g)%Z;
  inv_over : lives g = 0%Z -> isGameOver g = true;
  inv_listening :
    isListening g b = true -> isGameOver g = false /\ (1 <= lives g)%Z;
  inv_listeners :
    orientationListeners b = [] \/ orientationListeners b = [self g]
}.

Definition StInv (s : St) : Prop := GameInv (fst s) (snd s).

Definition WorldInv (w : World) : Prop :=
  match currentGame w with
  | Some g => GameInv g (page w)
  | None => orientationListeners (page w) = []
  end.

(** At most one animation frame is pending, and it is the one the current
    game keeps in [animationFrameId]. *)
Definition FrameInv (s : St) : Prop :=
  frameRequests (snd s) = []
  \/ exists id, animationFrameId (fst s) = Some id
                /\ frameRequests (snd s) = [(id, self (fst s))].

Definition WorldFrameInv (w : World) : Prop :=
  match currentGame w with
  | Some g => FrameInv (g, page w)
  | None => frameRequests (page w) = []
  end.

(** [if (this.animationFrameId) { cancelAnimationFrame(...); ... = null }] *)
Definition cancelPending (s : St) : St :=
  match animationFrameId (fst s) with
  | Some id => (set_animationFrameId None (fst s),
                cancelAnimationFrame id (snd s))
  | None => s
  end.

(** ** The life cycle of the page *)

(** What [endGame] puts in the message panel for a score. *)
Definition resultMessage (p : Z) : Message :=
  if (12 <? p)%Z then GoodJob else StillThirsty.

(** The screen shows the state of the game. *)
Definition Displayed (g : Game) (b : Browser) : Prop :=
  livesText b = lives g /\ pointsText b = points g
  /\ transform b = rotation g.

(** Constructed, waiting for the start gesture. *)
Definition Waiting (g : Game) (b : Browser) : Prop :=
  g = mkGame (self g) 0 4 3 0 false 0 None [] None
  /\ orientationListeners b = [] /\ frameRequests b = []
  /\ messageShown b = true /\ messageHTML b = Welcome.

(** Started and not over: one listener, one pending frame, no message. *)
Definition Playing (g : Game) (b : Browser) : Prop :=
  isGameOver g = false
  /\ orientationListeners b = [self g]
  /\ (exists id, animationFrameId g = Some id
                 /\ frameRequests b = [(id, self g)])
  /\ messageShown b = false
  /\ (1 <= lives g <= 3)%Z /\ (0 <= points g)%Z
  /\ speed g = levelSpeed (Z.to_nat (points g / 5)).

(** Over: nothing is subscribed or scheduled, and the result is shown. *)
Definition Finished (g : Game) (b : Browser) : Prop :=
  isGameOver g = true
  /\ lives g = 0%Z /\ (0 <= points g)%Z
  /\ rotation g = 0 /\ speed g = 4
  /\ orientationListeners b = [] /\ frameRequests b = []
  /\ messageShown b = true /\ messageHTML b = resultMessage (points g).

Definition LifeCycle (w : World) : Prop :=
  match currentGame w with
  | Some g =>
      Displayed g (page w)
      /\ (length (recentBetas g) <= 3)%nat
      /\ (Waiting g (page w) \/ Playing g (page w) \/ Finished g (page w))
  | None => False
  end.

Definition isPlayAgain (e : Event) : bool :=
  match e with
  | PlayAgain => true
  | _ => false
  end.

(** Every sample is at most 4 degrees above the one before it. *)
Fixpoint gentle (l : list Q) : Prop :=
  match l with
  | a :: (b :: _) as t => b - a <= 4 /\ gentle t
  | _ => True
  end.

(** ** The blinking beam *)

(** [blinkBeam] of one game object: the flag [isBlinking], the background of
    the beam, and the intervals set by [setInterval] that are still
    running. *)
Module Blink.

(** The two gradients [checkHit] blinks with. *)
Inductive Colour :=
| Green
| Red.

(** [beam.style.background] *)
Inductive Background :=
| Neutral                (* the white gradient *)
| Transparent
| Flash (c : Colour).

(** One interval of [blinkBeam]: its handle, its [blinkCount] and the colour
    it was started with. *)
Record Interval := mkInterval {
  handle : positive;
  blinkCount : nat;
  colour : Colour
}.

Record State := mkState {
  isBlinking : bool;
  background : Background;
  intervals : list Interval;
  nextHandle : positive
}.

Definition maxBlinks : nat := 3.

(** [blinkBeam(color)] *)
Definition blinkBeam (c : Colour) (s : State) : State :=
  if isBlinking s then s
  else mkState true (background s)
               (intervals s ++ [mkInterval (nextHandle s) 0 c])
               (Pos.succ (nextHandle s)).

(** The callback of the interval [h], run every 100 ms. *)
Definition fire (h : positive) (s : State) : State :=
  match find (fun i => Pos.eqb (handle i) h) (intervals s) with
  | None => s
  | Some i =>
      if (maxBlinks * 2 <=? blinkCount i)%nat then
        mkState false Neutral
                (filter (fun j => negb (Pos.eqb (handle j) h)) (intervals s))
                (nextHandle s)
      else
        mkState (isBlinking s)
                (if Nat.even (blinkCount i) then Flash (colour i)
                 else Transparent)
                (map (fun j => if Pos.eqb (handle j) h
                               then mkInterval h (S (blinkCount i)) (colour i)
                               else j)
                     (intervals s))
                (nextHandle s)
  end.

Inductive Event :=
| Request (c : Colour)
| Timer (h : positive).

Definition step (e : Event) (s : State) : State :=
  match e with
  | Request c => blinkBeam c s
  | Timer h => fire h s
  end.

Definition run (es : list Event) (s : State) : State :=
  fold_left (fun s e => step e s) es s.

(** How often the interval [h] fires in [es]. *)
Definition fires (h : positive) (es : list Event) : nat :=
  length (filter (fun e => match e with
                           | Timer h' => Pos.eqb h' h
                           | Request _ => false
                           end) es).

(** No blink is running. *)
Definition idle (s : State) : Prop :=
  isBlinking s = false /\ intervals s = [].

(** What the beam shows after the [n]-th callback of a blink in colour [c]
    that found [bg]. *)
Definition shown (bg : Background) (c : Colour) (n : nat) : Background :=
  match n with
  | O => bg
  | S m => if Nat.even m then Flash c else Transparent
  end.

End Blink.

(** The feedback of [checkHit]: the colour it passes to [blinkBeam] and the
    pattern it passes to [navigator.vibrate], which is called only where
    the browser has it. *)
Record Feedback := mkFeedback {
  beam : Blink.State;
  canVibrate : bool;              (* 'vibrate' in navigator *)
  vibrations : list (list Z)      (* the calls made, oldest first *)
}.

Definition vibrate (pattern : list Z) (f : Feedback) : Feedback :=
  if canVibrate f
  then mkFeedback (beam f) (canVibrate f) (vibrations f ++ [pattern])
  else f.

Definition blink (c : Blink.Colour) (f : Feedback) : Feedback :=
  mkFeedback (Blink.blinkBeam c (beam f)) (canVibrate f) (vibrations f).

(** What [checkHit] does besides scoring, for the rotation it scores. *)
Definition checkHitFeedback (r : Q) (f : Feedback) : Feedback :=
  if isInTargetZone r
  then vibrate [100; 50; 100]%Z (blink Blink.Green f)
  else vibrate [500]%Z (blink Blink.Red f).

(** The interval callbacks and requests [es] reaching the beam of [f]. *)
Definition beamEvents (es : list Blink.Event) (f : Feedback) : Feedback :=
  mkFeedback (Blink.run es (beam f)) (canVibrate f) (vibrations f).

(** ** Facts on the remainder *)

Section Remainder.

Lemma trunc_nonneg_floor (q : Q) : 0 <= q -> Js.trunc q = Qfloor q.
Proof.
  intros H. unfold Js.trunc, Qfloor. destruct q as [n d]. simpl.
  apply Z.quot_div_nonneg; [|lia].
  unfold Qle in H. simpl in H. lia.
Qed.

Lemma rem_bounds (x : Q) : 0 <= x -> 0 <= Js.rem x 360 /\ Js.rem x 360 < 360.
Proof.
  intros Hx. unfold Js.rem.
  assert (Hq : 0 <= x / 360).
  { apply Qle_shift_div_l; lra. }
  rewrite (trunc_nonneg_floor _ Hq).
  pose proof (Qfloor_le (x / 360)) as Hlo.
  pose proof (Qlt_floor (x / 360)) as Hhi.
  rewrite inject_Z_plus in Hhi.
  assert (Hx' : x == 360 * (x / 360)) by (field).
  set (f := inject_Z (Qfloor (x / 360))) in *.
  set (q := x / 360) in *.
  change (inject_Z 1) with 1 in Hhi.
  split; lra.
Qed.

Lemma inject_Z_between (a b : Z) :
  inject_Z a < inject_Z b + 1 -> inject_Z b < inject_Z a + 1 -> a = b.
Proof.
  intros H1 H2.
  change 1 with (inject_Z 1) in H1, H2.
  rewrite <- inject_Z_plus in H1, H2.
  rewrite <- Zlt_Qlt in H1, H2. lia.
Qed.

Lemma rem_unique (x r : Q) (k : Z) :
  0 <= x -> 0 <= r -> r < 360 -> x == r + 360 * inject_Z k ->
  Js.rem x 360 == r.
Proof.
  intros Hx Hr0 Hr1 Hdec. unfold Js.rem.
  assert (Hq : 0 <= x / 360).
  { apply Qle_shift_div_l; lra. }
  rewrite (trunc_nonneg_floor _ Hq).
  pose proof (Qfloor_le (x / 360)) as Hlo.
  pose proof (Qlt_floor (x / 360)) as Hhi.
  rewrite inject_Z_plus in Hhi.
  change (inject_Z 1) with 1 in Hhi.
  assert (Hx' : x == 360 * (x / 360)) by (field).
  assert (Hk : Qfloor (x / 360) = k).
  { apply inject_Z_between; set (q := x / 360) in *; lra. }
  rewrite Hk. lra.
Qed.

Lemma rem_decompose (x : Q) :
  x == Js.rem x 360 + 360 * inject_Z (Js.trunc (x / 360)).
Proof. unfold Js.rem. lra. Qed.

Lemma rem_small (x : Q) : 0 <= x -> x < 360 -> Js.rem x 360 == x.
Proof.
  intros H0 H1. apply (rem_unique x x 0); try assumption.
  change (inject_Z 0) with 0. lra.
Qed.

Lemma rem_add (a b : Q) :
  0 <= a -> 0 <= b ->
  Js.rem (Js.rem a 360 + b) 360 == Js.rem (a + b) 360.
Proof.
  intros Ha Hb.
  destruct (rem_bounds a Ha) as [Ha0 Ha1].
  assert (Hab : 0 <= Js.rem a 360 + b) by lra.
  destruct (rem_bounds _ Hab) as [H0 H1].
  symmetry.
  apply (rem_unique _ _ (Js.trunc (a / 360) + Js.trunc ((Js.rem a 360 + b) / 360))); try assumption; try lra.
  rewrite inject_Z_plus.
  pose proof (rem_decompose a). pose proof (rem_decompose (Js.rem a 360 + b)).
  lra.
Qed.

Lemma rem_eq_compat (x y : Q) : 0 <= x -> x == y -> Js.rem x 360 == Js.rem y 360.
Proof.
  intros Hx Hxy.
  destruct (rem_bounds x Hx) as [H0 H1].
  symmetry. apply (rem_unique y _ (Js.trunc (x / 360))); try assumption; try lra.
  pose proof (rem_decompose x). lra.
Qed.

Lemma trunc_close (q : Q) :
  - (1) < q - inject_Z (Js.trunc q) /\ q - inject_Z (Js.trunc q) < 1.
Proof.
  destruct q as [n d]. unfold Js.trunc, Qlt, Qminus, Qplus, Qopp, inject_Z.
  cbn [Qnum Qden].
  pose proof (Z.quot_rem' n (Zpos d)) as E.
  pose proof (Z.rem_bound_abs n (Zpos d)) as B.
  assert (Hd : (0 < Zpos d)%Z) by lia.
  set (t := Z.quot n (Zpos d)) in *. set (r := Z.rem n (Zpos d)) in *.
  assert (Hr : (- Zpos d < r < Zpos d)%Z) by lia.
  rewrite !Pos2Z.inj_mul. split; nia.
Qed.

Lemma rem_between (x : Q) : - (360) < Js.rem x 360 /\ Js.rem x 360 < 360.
Proof.
  unfold Js.rem. destruct (trunc_close (x / 360)) as [H1 H2].
  assert (Hx : x == 360 * (x / 360)) by field.
  set (q := x / 360) in *. set (t := inject_Z (Js.trunc q)) in *.
  split; lra.
Qed.

End Remainder.

(** ** Facts on rounding *)

Section Rounding.

Lemma pow2_pos (e : Z) : 0 < Js.pow2 e.
Proof. apply Qpower_0_lt. reflexivity. Qed.

Lemma pow2_add (a b : Z) : Js.pow2 (a + b) == Js.pow2 a * Js.pow2 b.
Proof. apply Qpower_plus. discriminate. Qed.

Lemma pow2_le (a b : Z) : (a <= b)%Z -> Js.pow2 a <= Js.pow2 b.
Proof. intros H. apply Qpower_le_compat_l; [exact H | discriminate]. Qed.


Lemma pow2_inject (k : Z) : (0 <= k)%Z -> Js.pow2 k == inject_Z (2 ^ k).
Proof. intros H. unfold Js.pow2. rewrite Zpower_Qpower by exact H. reflexivity. Qed.


Lemma Qmake_split (n : Z) (d : positive) :
  (n # d) * inject_Z (Zpos d) == inject_Z n.
Proof. unfold Qeq, Qmult, inject_Z. cbn. lia. Qed.

Lemma ilog2_spec (x : Q) :
  0 < x -> Js.pow2 (Js.ilog2 x) <= x /\ x < Js.pow2 (Js.ilog2 x + 1).
Proof.
  intros Hx. destruct x as [n d]. unfold Js.ilog2. cbn [Qnum Qden].
  assert (Hn : (0 < n)%Z) by (unfold Qlt in Hx; cbn in Hx; lia).
  pose proof (Z.log2_spec n Hn) as [Hn1 Hn2].
  pose proof (Z.log2_spec (Zpos d) eq_refl) as [Hd1 Hd2].
  pose proof (Z.log2_nonneg n) as Ha. pose proof (Z.log2_nonneg (Zpos d)) as Hb.
  set (a := Z.log2 n) in *. set (b := Z.log2 (Zpos d)) in *.
  rewrite Zle_Qle, <- pow2_inject in Hn1, Hd1 by lia.
  rewrite Zlt_Qlt, <- pow2_inject in Hn2, Hd2 by lia.
  unfold Z.succ in *.
  pose proof (Qmake_split n d) as E.
  pose proof (pow2_pos b) as Pb.
  set (D := inject_Z (Zpos d)) in *. set (N := inject_Z n) in *.
  set (x := n # d) in *.
  assert (Hup : x < Js.pow2 (a - b + 1)).
  { assert (E1 : Js.pow2 (a + 1) == Js.pow2 (a - b + 1) * Js.pow2 b).
    { rewrite <- pow2_add. apply Qpower_comp; [reflexivity | lia]. }
    pose proof (pow2_pos (a - b + 1)) as P1.
    apply Qnot_le_lt. intros Hc.
    assert (Js.pow2 (a - b + 1) * Js.pow2 b <= x * D).
    { apply Qle_trans with (x * Js.pow2 b).
      - apply Qmult_le_compat_r; [exact Hc | lra].
      - rewrite (Qmult_comm x), (Qmult_comm x). apply Qmult_le_compat_r; lra. }
    lra. }
  assert (Hlo : Js.pow2 (a - b - 1) < x).
  { assert (E1 : Js.pow2 a == Js.pow2 (a - b - 1) * Js.pow2 (b + 1)).
    { rewrite <- pow2_add. apply Qpower_comp; [reflexivity | lia]. }
    pose proof (pow2_pos (a - b - 1)) as P1.
    apply Qnot_le_lt. intros Hc.
    assert (x * D < Js.pow2 (a - b - 1) * Js.pow2 (b + 1)).
    { apply Qle_lt_trans with (Js.pow2 (a - b - 1) * D).
      - apply Qmult_le_compat_r; [exact Hc | lra].
      - rewrite (Qmult_comm _ D), (Qmult_comm _ (Js.pow2 (b + 1))).
        apply Qmult_lt_compat_r; lra. }
    lra. }
  destruct (Qle_bool (Js.pow2 (a - b)) x) eqn:E2.
  - apply Qle_bool_iff in E2. split; assumption.
  - assert (x < Js.pow2 (a - b)).
    { apply Qnot_le_lt. intros Hc. apply Qle_bool_iff in Hc. congruence. }
    replace (a - b - 1 + 1)%Z with (a - b)%Z by lia. split; lra.
Qed.

Lemma ilog2_unique (x : Q) (e : Z) :
  0 < x -> Js.pow2 e <= x -> x < Js.pow2 (e + 1) -> Js.ilog2 x = e.
Proof.
  intros Hx H1 H2. destruct (ilog2_spec x Hx) as [S1 S2].
  destruct (Z.lt_trichotomy (Js.ilog2 x) e) as [Hlt | [Heq | Hgt]].
  - pose proof (pow2_le (Js.ilog2 x + 1) e ltac:(lia)). lra.
  - exact Heq.
  - pose proof (pow2_le (e + 1) (Js.ilog2 x) ltac:(lia)). lra.
Qed.

Lemma ilog2_comp (x y : Q) : 0 < x -> x == y -> Js.ilog2 x = Js.ilog2 y.
Proof.
  intros Hx E. assert (Hy : 0 < y) by lra.
  destruct (ilog2_spec y Hy) as [S1 S2].
  apply ilog2_unique; lra.
Qed.

Lemma ilog2_mono (x y : Q) : 0 < x -> x <= y -> (Js.ilog2 x <= Js.ilog2 y)%Z.
Proof.
  intros Hx Hxy. assert (Hy : 0 < y) by lra.
  destruct (ilog2_spec x Hx) as [X1 X2]. destruct (ilog2_spec y Hy) as [Y1 Y2].
  destruct (Z_le_gt_dec (Js.ilog2 x) (Js.ilog2 y)) as [H | H]; [exact H|].
  pose proof (pow2_le (Js.ilog2 y + 1) (Js.ilog2 x) ltac:(lia)). lra.
Qed.

Lemma rne_floor (x : Q) :
  (Qfloor x <= Js.rne x <= Qfloor x + 1)%Z.
Proof.
  unfold Js.rne. destruct (Qcompare _ _); [destruct (Z.even _)| |]; lia.
Qed.


Lemma rne_int (n : Z) : Js.rne (inject_Z n) = n.
Proof.
  unfold Js.rne. rewrite Qfloor_Z.
  destruct (Qcompare_spec (inject_Z n - inject_Z n) (1 # 2)) as [E | E | E];
    [lra | reflexivity | lra].
Qed.

Lemma rne_comp (x y : Q) : x == y -> Js.rne x = Js.rne y.
Proof.
  intros E. unfold Js.rne. rewrite (Qfloor_comp x y E).
  assert (E2 : x - inject_Z (Qfloor y) == y - inject_Z (Qfloor y)) by lra.
  rewrite E2. reflexivity.
Qed.

Lemma rne_mono (x y : Q) : x <= y -> (Js.rne x <= Js.rne y)%Z.
Proof.
  intros H. pose proof (Qfloor_resp_le x y H) as Hf.
  destruct (Z.eq_dec (Qfloor x) (Qfloor y)) as [E | Hne].
  - unfold Js.rne. rewrite E.
    destruct (Qcompare_spec (x - inject_Z (Qfloor y)) (1 # 2)) as [E1 | E1 | E1];
      destruct (Qcompare_spec (y - inject_Z (Qfloor y)) (1 # 2))
        as [E2 | E2 | E2];
      try (destruct (Z.even (Qfloor y))); try lia; lra.
  - pose proof (rne_floor x). pose proof (rne_floor y). lia.
Qed.

Lemma scaled_bounds (x : Q) :
  0 < x ->
  Js.pow2 52 <= x / Js.pow2 (Js.ilog2 x - 52)
  /\ x / Js.pow2 (Js.ilog2 x - 52) < Js.pow2 53.
Proof.
  intros Hx. destruct (ilog2_spec x Hx) as [S1 S2].
  pose proof (pow2_pos (Js.ilog2 x - 52)) as Pq.
  assert (E1 : Js.pow2 (Js.ilog2 x) == Js.pow2 52 * Js.pow2 (Js.ilog2 x - 52)).
  { rewrite <- pow2_add. apply Qpower_comp; [reflexivity | lia]. }
  assert (E2 : Js.pow2 (Js.ilog2 x + 1)
               == Js.pow2 53 * Js.pow2 (Js.ilog2 x - 52)).
  { rewrite <- pow2_add. apply Qpower_comp; [reflexivity | lia]. }
  split.
  - apply Qle_shift_div_l; [exact Pq | lra].
  - apply Qlt_shift_div_r; [exact Pq | lra].
Qed.

Lemma roundPos_mantissa (x : Q) :
  0 < x ->
  (2 ^ 52 <= Js.rne (x / Js.pow2 (Js.ilog2 x - 52)) <= 2 ^ 53)%Z.
Proof.
  intros Hx. destruct (scaled_bounds x Hx) as [B1 B2].
  assert (E52 : Js.pow2 52 == inject_Z (2 ^ 52)) by (apply pow2_inject; lia).
  assert (E53 : Js.pow2 53 == inject_Z (2 ^ 53)) by (apply pow2_inject; lia).
  rewrite E52 in B1. rewrite E53 in B2.
  apply rne_mono in B1. apply Qlt_le_weak, rne_mono in B2.
  rewrite rne_int in B1, B2. split; assumption.
Qed.

Lemma roundPos_bounds (x : Q) :
  0 < x ->
  Js.pow2 (Js.ilog2 x) <= Js.roundPos x
  /\ Js.roundPos x <= Js.pow2 (Js.ilog2 x + 1).
Proof.
  intros Hx. destruct (roundPos_mantissa x Hx) as [M1 M2].
  pose proof (pow2_pos (Js.ilog2 x - 52)) as Pq.
  assert (E1 : Js.pow2 (Js.ilog2 x)
               == inject_Z (2 ^ 52) * Js.pow2 (Js.ilog2 x - 52)).
  { rewrite <- pow2_inject, <- pow2_add by lia.
    apply Qpower_comp; [reflexivity | lia]. }
  assert (E2 : Js.pow2 (Js.ilog2 x + 1)
               == inject_Z (2 ^ 53) * Js.pow2 (Js.ilog2 x - 52)).
  { rewrite <- pow2_inject, <- pow2_add by lia.
    apply Qpower_comp; [reflexivity | lia]. }
  unfold Js.roundPos. rewrite E1, E2.
  rewrite Zle_Qle in M1, M2.
  split; apply Qmult_le_compat_r; lra.
Qed.

Lemma roundPos_pos (x : Q) : 0 < x -> 0 < Js.roundPos x.
Proof.
  intros Hx. destruct (roundPos_bounds x Hx) as [B _].
  pose proof (pow2_pos (Js.ilog2 x)). lra.
Qed.

Lemma roundPos_comp (x y : Q) :
  0 < x -> x == y -> Js.roundPos x == Js.roundPos y.
Proof.
  intros Hx E. unfold Js.roundPos. rewrite <- (ilog2_comp x y Hx E).
  assert (E2 : x / Js.pow2 (Js.ilog2 x - 52) == y / Js.pow2 (Js.ilog2 x - 52)).
  { apply Qdiv_comp; [exact E | reflexivity]. }
  rewrite (rne_comp _ _ E2). reflexivity.
Qed.

Lemma roundPos_mono (x y : Q) :
  0 < x -> x <= y -> Js.roundPos x <= Js.roundPos y.
Proof.
  intros Hx Hxy. assert (Hy : 0 < y) by lra.
  pose proof (ilog2_mono x y Hx Hxy) as He.
  destruct (Z.eq_dec (Js.ilog2 x) (Js.ilog2 y)) as [E | Hne].
  - unfold Js.roundPos. rewrite E.
    pose proof (pow2_pos (Js.ilog2 y - 52)) as Pq.
    apply Qmult_le_compat_r; [|lra].
    rewrite <- Zle_Qle. apply rne_mono.
    apply Qmult_le_compat_r; [exact Hxy|].
    apply Qlt_le_weak, Qinv_lt_0_compat, Pq.
  - destruct (roundPos_bounds x Hx) as [_ B1].
    destruct (roundPos_bounds y Hy) as [B2 _].
    pose proof (pow2_le (Js.ilog2 x + 1) (Js.ilog2 y) ltac:(lia)). lra.
Qed.

(** A positive number whose scaled value is an integer is its own
    rounding. *)
Lemma roundPos_exact (x : Q) (m : Z) :
  0 < x -> x / Js.pow2 (Js.ilog2 x - 52) == inject_Z m -> Js.roundPos x == x.
Proof.
  intros Hx E. unfold Js.roundPos. rewrite (rne_comp _ _ E), rne_int, <- E.
  field. pose proof (pow2_pos (Js.ilog2 x - 52)). lra.
Qed.


Lemma roundPos_int (n : Z) :
  (0 < n < 2 ^ 53)%Z -> Js.roundPos (inject_Z n) == inject_Z n.
Proof.
  intros [H0 H1].
  assert (Hx : 0 < inject_Z n) by (rewrite Zlt_Qlt in H0; exact H0).
  destruct (ilog2_spec _ Hx) as [S1 S2].
  set (e := Js.ilog2 (inject_Z n)) in *.
  assert (He0 : (0 <= e)%Z).
  { destruct (Z_le_gt_dec 0 e) as [H | H]; [exact H|].
    pose proof (pow2_le (e + 1) 0 ltac:(lia)) as P.
    change (Js.pow2 0) with 1 in P.
    assert (1 <= inject_Z n) by (rewrite <- (Zle_Qle 1); lia). lra. }
  assert (He1 : (e <= 52)%Z).
  { destruct (Z_le_gt_dec e 52) as [H | H]; [exact H|].
    pose proof (pow2_le 53 e ltac:(lia)) as P.
    rewrite pow2_inject in P by lia.
    assert (inject_Z n < inject_Z (2 ^ 53)) by (rewrite <- Zlt_Qlt; exact H1).
    lra. }
  apply (roundPos_exact _ (n * 2 ^ (52 - e))); [exact Hx|].
  fold e. rewrite inject_Z_mult, <- pow2_inject by lia.
  pose proof (pow2_pos (e - 52)) as Pq.
  apply Qmult_inj_r with (Js.pow2 (e - 52)); [lra|].
  rewrite <- Qmult_assoc, <- pow2_add.
  replace (52 - e + (e - 52))%Z with 0%Z by lia.
  change (Js.pow2 0) with 1. field. lra.
Qed.

Lemma round_eq (x y : Q) : x == y -> Js.round x = Js.round y.
Proof. intros E. unfold Js.round. rewrite (Qred_complete x y E). reflexivity. Qed.

Lemma Qred_sign (x : Q) :
  (0 < x -> Qcompare (Qred x) 0 = Gt /\ 0 < Qred x)
  /\ (x < 0 -> Qcompare (Qred x) 0 = Lt /\ Qred x < 0)
  /\ (x == 0 -> Qcompare (Qred x) 0 = Eq).
Proof.
  pose proof (Qred_correct x) as E. revert E.
  generalize (Qred x). intros r E.
  split; [|split]; intros H.
  - assert (H1 : 0 < r) by lra. split; [|exact H1].
    apply Qgt_alt. exact H1.
  - assert (H1 : r < 0) by lra. split; [|exact H1].
    apply Qlt_alt. exact H1.
  - apply Qeq_alt. lra.
Qed.

Lemma round_pos (x : Q) : 0 < x -> Js.round x == Js.roundPos x.
Proof.
  intros Hx. unfold Js.round.
  destruct (Qred_sign x) as (S & _ & _). destruct (S Hx) as [H H1].
  rewrite H, Qred_correct. apply roundPos_comp; [exact H1|].
  apply Qred_correct.
Qed.

Lemma round_neg (x : Q) : x < 0 -> Js.round x == - Js.roundPos (- x).
Proof.
  intros Hx. unfold Js.round.
  destruct (Qred_sign x) as (_ & S & _). destruct (S Hx) as [H H1].
  rewrite H, Qred_correct.
  assert (E : - Qred x == - x) by (rewrite Qred_correct; reflexivity).
  assert (H2 : 0 < - Qred x).
  { revert H1. generalize (Qred x). intros r Hr. lra. }
  rewrite (roundPos_comp _ _ H2 E). reflexivity.
Qed.

Lemma round_zero (x : Q) : x == 0 -> Js.round x == 0.
Proof.
  intros Hx. unfold Js.round.
  destruct (Qred_sign x) as (_ & _ & S). rewrite (S Hx). reflexivity.
Qed.

Lemma round_sign (x : Q) :
  (0 < x -> 0 < Js.round x) /\ (x < 0 -> Js.round x < 0)
  /\ (0 <= x -> 0 <= Js.round x).
Proof.
  assert (Hp : 0 < x -> 0 < Js.round x).
  { intros H. rewrite (round_pos x H). apply roundPos_pos, H. }
  split; [exact Hp|]. split.
  - intros H. rewrite (round_neg x H).
    assert (0 < Js.roundPos (- x)) by (apply roundPos_pos; lra). lra.
  - intros H. destruct (Qlt_le_dec 0 x) as [H1 | H1].
    + apply Qlt_le_weak, Hp, H1.
    + rewrite round_zero; lra.
Qed.

Lemma round_mono (x y : Q) : x <= y -> Js.round x <= Js.round y.
Proof.
  intros H. destruct (round_sign x) as (Xp & Xn & _).
  destruct (round_sign y) as (Yp & Yn & _).
  destruct (Qlt_le_dec 0 x) as [Hx | Hx].
  - rewrite (round_pos x Hx), (round_pos y) by lra.
    apply roundPos_mono; assumption.
  - destruct (Qlt_le_dec x 0) as [Hx' | Hx'].
    + destruct (Qlt_le_dec y 0) as [Hy | Hy].
      * rewrite (round_neg x Hx'), (round_neg y Hy).
        assert (Js.roundPos (- y) <= Js.roundPos (- x))
          by (apply roundPos_mono; lra). lra.
      * specialize (Xn Hx'). destruct (Qlt_le_dec 0 y) as [Hy' | Hy'].
        -- specialize (Yp Hy'). lra.
        -- rewrite (round_zero y) by lra. lra.
    + rewrite (round_zero x) by lra.
      destruct (Qlt_le_dec 0 y) as [Hy | Hy].
      * specialize (Yp Hy). lra.
      * rewrite (round_zero y) by lra. lra.
Qed.


Lemma round_int (n : Z) :
  (- 2 ^ 53 < n < 2 ^ 53)%Z -> Js.round (inject_Z n) == inject_Z n.
Proof.
  intros [H0 H1]. destruct (Z.lt_trichotomy n 0) as [Hn | [-> | Hn]].
  - assert (Hx : inject_Z n < 0) by (rewrite Zlt_Qlt in Hn; exact Hn).
    rewrite (round_neg _ Hx).
    assert (E : - inject_Z n == inject_Z (- n))
      by (rewrite inject_Z_opp; reflexivity).
    assert (Hp : 0 < - inject_Z n) by lra.
    rewrite (roundPos_comp _ _ Hp E).
    rewrite roundPos_int by lia. rewrite inject_Z_opp. lra.
  - reflexivity.
  - assert (Hx : 0 < inject_Z n) by (rewrite Zlt_Qlt in Hn; exact Hn).
    rewrite (round_pos _ Hx). apply roundPos_int. lia.
Qed.



(** Rounding does not cross a whole number. *)
Lemma round_above (x : Q) (n : Z) :
  (- 2 ^ 53 < n < 2 ^ 53)%Z -> inject_Z n <= x -> inject_Z n <= Js.round x.
Proof.
  intros Hn Hx. rewrite <- (round_int n Hn). apply round_mono. exact Hx.
Qed.

Lemma round_below (x : Q) (n : Z) :
  (- 2 ^ 53 < n < 2 ^ 53)%Z -> x <= inject_Z n -> Js.round x <= inject_Z n.
Proof.
  intros Hn Hx. rewrite <- (round_int n Hn). apply round_mono. exact Hx.
Qed.

(** The literal [0.7] is a positive double. *)
Lemma step_pos : 0 < Js.round 0.7.
Proof. apply round_sign. reflexivity. Qed.


(** Adding a number that is not negative to a double does not go below a
    whole number the double is not below. *)
Lemma add_lower (x c : Q) (n : Z) :
  (- 2 ^ 53 < n < 2 ^ 53)%Z -> inject_Z n <= x -> 0 <= c ->
  inject_Z n <= Js.add x c.
Proof.
  intros Hn Hx Hc. unfold Js.add. rewrite <- (round_int n Hn).
  apply round_mono. lra.
Qed.

(** Nor above one both are not above. *)
Lemma sub_upper (x y : Q) (n : Z) :
  (- 2 ^ 53 < n < 2 ^ 53)%Z -> x - y <= inject_Z n ->
  Js.sub x y <= inject_Z n.
Proof.
  intros Hn Hx. unfold Js.sub. rewrite <- (round_int n Hn).
  apply round_mono. exact Hx.
Qed.


Lemma inject_Z_nonneg (z : Z) : (0 <= z)%Z -> 0 <= inject_Z z.
Proof.
  intros H. change 0 with (inject_Z 0). rewrite <- Zle_Qle. exact H.
Qed.

Lemma inject_Z_below (z k : Z) : (z < k)%Z -> inject_Z z < inject_Z k.
Proof. intros H. rewrite <- Zlt_Qlt. exact H. Qed.

(** Whole numbers add up without rounding. *)
Lemma whole_spec (v : Q) :
  whole v = true -> exists m : Z, (0 <= m <= 2 ^ 52)%Z /\ v == inject_Z m.
Proof.
  unfold whole. intros H.
  apply andb_prop in H. destruct H as [H H2].
  apply andb_prop in H. destruct H as [H0 H1].
  apply Qeq_bool_iff in H0. apply Qle_bool_iff in H1, H2.
  exists (Qfloor v). split; [|symmetry; exact H0].
  assert (A : inject_Z 0 <= inject_Z (Qfloor v))
    by (change (inject_Z 0) with 0; lra).
  assert (B : inject_Z (Qfloor v) <= inject_Z (2 ^ 52)) by lra.
  rewrite <- Zle_Qle in A, B. lia.
Qed.

Lemma add_whole (x y : Q) (n m : Z) :
  (0 <= n < 360)%Z -> (0 <= m <= 2 ^ 52)%Z ->
  x == inject_Z n -> y == inject_Z m -> Js.add x y == x + y.
Proof.
  intros Hn Hm Ex Ey. unfold Js.add.
  assert (E : x + y == inject_Z (n + m)) by (rewrite inject_Z_plus; lra).
  rewrite (round_eq _ _ E). rewrite round_int by lia. symmetry. exact E.
Qed.

Lemma rem_whole (x : Q) (z : Z) :
  (0 <= z)%Z -> x == inject_Z z -> Js.rem x 360 == inject_Z (z mod 360).
Proof.
  intros Hz E. pose proof (Z.mod_pos_bound z 360 ltac:(lia)) as Hb.
  apply (rem_unique _ _ (z / 360)).
  - rewrite E. apply inject_Z_nonneg. exact Hz.
  - apply inject_Z_nonneg. lia.
  - apply (inject_Z_below _ 360). lia.
  - rewrite E. change 360 with (inject_Z 360).
    rewrite <- inject_Z_mult, <- inject_Z_plus.
    rewrite inject_Z_injective. pose proof (Z.div_mod z 360). lia.
Qed.

End Rounding.

(** ** [checkHit] *)

(** On a whole number of degrees in [0, 360) the normalisation changes
    nothing: [n + 360] is a double. *)
Lemma normalizedRotation_whole (r : Q) (n : Z) :
  r == inject_Z n -> (0 <= n < 360)%Z -> normalizedRotation r == r.
Proof.
  intros E [H0 H1]. unfold normalizedRotation, Js.add.
  assert (Q0 : 0 <= r).
  { rewrite E. change 0 with (inject_Z 0). rewrite <- Zle_Qle. exact H0. }
  assert (Q1 : r < 360).
  { rewrite E. change 360 with (inject_Z 360). rewrite <- Zlt_Qlt. exact H1. }
  pose proof (rem_small r Q0 Q1) as Hr.
  assert (E2 : Js.rem r 360 + 360 == inject_Z (n + 360)).
  { rewrite Hr, E, inject_Z_plus. reflexivity. }
  rewrite (round_eq _ _ E2).
  pose proof (round_int (n + 360) ltac:(lia)) as Ei.
  apply (rem_unique _ r 1).
  - rewrite Ei, inject_Z_plus, <- E. change (inject_Z 360) with 360. lra.
  - exact Q0.
  - exact Q1.
  - rewrite Ei, inject_Z_plus, <- E. reflexivity.
Qed.

(** The sum inside the normalisation lies between 0 and 720. *)
Lemma normalized_sum_bounds (r : Q) :
  0 <= Js.add (Js.rem r 360) 360 /\ Js.add (Js.rem r 360) 360 <= 720.
Proof.
  destruct (rem_between r) as [H1 H2]. unfold Js.add. split.
  - apply round_sign. lra.
  - apply (round_below _ 720); [lia|]. change (inject_Z 720) with 720. lra.
Qed.

Lemma normalizedRotation_bounds (r : Q) :
  0 <= normalizedRotation r /\ normalizedRotation r < 360.
Proof.
  unfold normalizedRotation. apply rem_bounds. apply normalized_sum_bounds.
Qed.

(** From a rotation in [0, 360) the normalisation cannot leave the target
    zone: at 25 or less it stays at 25 or less, at 335 or more it stays at
    335 or more, or the sum reaches 720 and it becomes 0. *)
Lemma normalizedRotation_zone (r : Q) :
  0 <= r -> r < 360 ->
  (r <= 25 -> normalizedRotation r <= 25)
  /\ (335 <= r -> 335 <= normalizedRotation r \/ normalizedRotation r == 0).
Proof.
  intros H0 H1. unfold normalizedRotation.
  pose proof (rem_small r H0 H1) as Hr.
  destruct (normalized_sum_bounds r) as [_ Y1].
  assert (Y0 : 360 <= Js.add (Js.rem r 360) 360).
  { apply (round_above _ 360); [lia|]. change (inject_Z 360) with 360. lra. }
  set (y := Js.add (Js.rem r 360) 360) in *.
  split.
  - intros H. assert (Y2 : y <= 385).
    { apply (round_below _ 385); [lia|].
      change (inject_Z 385) with 385. lra. }
    rewrite (rem_unique y (y - 360) 1); try lra.
    change (inject_Z 1) with 1. lra.
  - intros H. assert (Y2 : 695 <= y).
    { apply (round_above _ 695); [lia|].
      change (inject_Z 695) with 695. lra. }
    destruct (Qlt_le_dec y 720) as [Y3 | Y3].
    + left. rewrite (rem_unique y (y - 360) 1); try lra.
      change (inject_Z 1) with 1. lra.
    + right. apply (rem_unique y 0 2); try lra.
      change (inject_Z 2) with 2. lra.
Qed.

Lemma cleanup_score (s : St) :
  lives (fst (cleanup s)) = lives (fst s)
  /\ points (fst (cleanup s)) = points (fst s).
Proof.
  destruct s as [g b]. unfold cleanup.
  destruct (animationFrameId g); simpl; auto.
Qed.

Lemma cleanup_over (s : St) : isGameOver (fst (cleanup s)) = true.
Proof.
  destruct s as [g b]. unfold cleanup.
  destruct (animationFrameId g); reflexivity.
Qed.

Lemma endGame_fst (s : St) : fst (endGame s) = fst (cleanup s).
Proof. unfold endGame. destruct (cleanup s) as [g b]. reflexivity. Qed.

Lemma checkHit_in_zone (s : St) :
  isInTargetZone (rotation (fst s)) = true -> wasHit s (checkHit s).
Proof.
  destruct s as [g b]. simpl. intros Hz. unfold checkHit. rewrite Hz.
  cbn [points set_points].
  destruct (Z.rem (points g + 1) 5 =? 0)%Z; split; reflexivity.
Qed.

Lemma checkHit_off_zone (s : St) :
  isInTargetZone (rotation (fst s)) = false -> wasMiss s (checkHit s).
Proof.
  destruct s as [g b]. simpl. intros Hz. unfold checkHit. rewrite Hz.
  cbn [lives set_lives].
  destruct (lives g - 1 <=? 0)%Z; [|split; reflexivity].
  unfold wasMiss. rewrite endGame_fst.
  destruct (cleanup_score (set_lives (lives g - 1) g,
                           set_livesText (lives g - 1) b)) as [Hl Hp].
  split; [rewrite Hl | rewrite Hp]; reflexivity.
Qed.

Lemma hit_not_miss (s s' : St) : wasHit s s' -> wasMiss s s' -> False.
Proof. unfold wasHit, wasMiss. intros [? ?] [? ?]. lia. Qed.

Lemma checkHit_evaluated (s : St) : evaluated s (checkHit s).
Proof.
  unfold evaluated.
  destruct (isInTargetZone (rotation (fst s))) eqn:Hz.
  - destruct (checkHit_in_zone s Hz) as [Hp _]. left. lia.
  - destruct (checkHit_off_zone s Hz) as [Hl _]. right. lia.
Qed.

Lemma isInTargetZone_spec (r : Q) :
  isInTargetZone r = true <->
  335 <= normalizedRotation r \/ normalizedRotation r <= 25.
Proof.
  unfold isInTargetZone. rewrite orb_true_iff, !Qle_bool_iff. tauto.
Qed.

(** So a rotation that is in the zone before it is normalised is a hit. *)
Lemma isInTargetZone_raw (r : Q) :
  0 <= r -> r < 360 -> 335 <= r \/ r <= 25 -> isInTargetZone r = true.
Proof.
  intros H0 H1 H. apply isInTargetZone_spec.
  destruct (normalizedRotation_zone r H0 H1) as [Hlo Hhi].
  destruct H as [H | H].
  - destruct (Hhi H) as [E | E]; [left; exact E | right; lra].
  - right. apply Hlo, H.
Qed.


(** C2. [checkHit] scores a hit exactly when the normalised rotation is at
    least 335 or at most 25, and a miss otherwise; so a rotation of 335 or of
    25 is a hit, and one of 334 or of 26 is a miss. *)
Theorem checkHit_target_zone :
  (forall s : St,
      (wasHit s (checkHit s) <->
       335 <= normalizedRotation (rotation (fst s))
       \/ normalizedRotation (rotation (fst s)) <= 25)
      /\ (wasMiss s (checkHit s) <->
          ~ (335 <= normalizedRotation (rotation (fst s))
             \/ normalizedRotation (rotation (fst s)) <= 25)))
  /\ (forall s : St, rotation (fst s) == 335 -> wasHit s (checkHit s))
  /\ (forall s : St, rotation (fst s) == 25 -> wasHit s (checkHit s))
  /\ (forall s : St, rotation (fst s) == 334 -> wasMiss s (checkHit s))
  /\ (forall s : St, rotation (fst s) == 26 -> wasMiss s (checkHit s)).
Proof.
  assert (Hall : forall s : St,
      (wasHit s (checkHit s) <->
       335 <= normalizedRotation (rotation (fst s))
       \/ normalizedRotation (rotation (fst s)) <= 25)
      /\ (wasMiss s (checkHit s) <->
          ~ (335 <= normalizedRotation (rotation (fst s))
             \/ normalizedRotation (rotation (fst s)) <= 25))).
  { intros s. rewrite <- isInTargetZone_spec.
    destruct (isInTargetZone (rotation (fst s))) eqn:Hz.
    - pose proof (checkHit_in_zone s Hz) as Hh. split; split; intros H.
      + reflexivity.
      + exact Hh.
      + exfalso. exact (hit_not_miss _ _ Hh H).
      + exfalso. apply H. reflexivity.
    - pose proof (checkHit_off_zone s Hz) as Hm. split; split; intros H.
      + exfalso. exact (hit_not_miss _ _ H Hm).
      + discriminate H.
      + discriminate.
      + exact Hm. }
  split; [exact Hall|].
  assert (Hin : forall (s : St) (n : Z),
            rotation (fst s) == inject_Z n -> (0 <= n < 360)%Z ->
            normalizedRotation (rotation (fst s)) == inject_Z n).
  { intros s n E Hn. rewrite (normalizedRotation_whole _ n E Hn). exact E. }
  split; [|split; [|split]]; intros s Hr; apply Hall.
  - rewrite (Hin s 335%Z Hr) by lia. left. discriminate.
  - rewrite (Hin s 25%Z Hr) by lia. right. discriminate.
  - rewrite (Hin s 334%Z Hr) by lia. intros [H | H]; apply H; reflexivity.
  - rewrite (Hin s 26%Z Hr) by lia. intros [H | H]; apply H; reflexivity.
Qed.

Lemma checkHit_target_zone_witness :
  let s := (mkGame 0 335 4 3 0 false 0 None [] None,
            mkBrowser 335 3 0 Welcome false [0%nat] [] 1) in
  rotation (fst s) == 335 /\ wasHit s (checkHit s).
Proof.
  split; [reflexivity|].
  apply (proj1 (proj2 checkHit_target_zone)). reflexivity.
Defined.

(** ** [endGame] *)

Lemma endGame_message (s : St) :
  messageHTML (snd (endGame s))
  = (if (12 <? points (fst s))%Z then GoodJob else StillThirsty)
  /\ messageShown (snd (endGame s)) = true.
Proof.
  unfold endGame.
  destruct (cleanup_score s) as [_ Hp].
  destruct (cleanup s) as [g b]. simpl in *. rewrite Hp. auto.
Qed.

(** C7. [endGame] shows the winning message exactly when [points > 12]: with
    12 points it shows the losing one, with 13 the winning one. *)
Theorem endGame_message_threshold :
  (forall s : St,
      messageShown (snd (endGame s)) = true
      /\ (messageHTML (snd (endGame s)) = GoodJob <-> (12 < points (fst s))%Z)
      /\ (messageHTML (snd (endGame s)) = StillThirsty
          <-> ~ (12 < points (fst s))%Z))
  /\ (forall s : St, points (fst s) = 12%Z ->
        messageHTML (snd (endGame s)) = StillThirsty)
  /\ (forall s : St, points (fst s) = 13%Z ->
        messageHTML (snd (endGame s)) = GoodJob).
Proof.
  assert (Hall : forall s : St,
      messageShown (snd (endGame s)) = true
      /\ (messageHTML (snd (endGame s)) = GoodJob <-> (12 < points (fst s))%Z)
      /\ (messageHTML (snd (endGame s)) = StillThirsty
          <-> ~ (12 < points (fst s))%Z)).
  { intros s. destruct (endGame_message s) as [Hm Hs]. rewrite Hm.
    split; [exact Hs|].
    destruct (Z.ltb_spec 12 (points (fst s))); split; split;
      intros; try discriminate; try reflexivity; try lia. }
  split; [exact Hall|].
  split; intros s Hp; apply Hall; lia.
Qed.

Lemma endGame_message_threshold_witness :
  let s := (mkGame 0 100 (4 + 0.7 + 0.7) 0 12 false 0 None [] None,
            mkBrowser 100 0 12 Welcome false [0%nat] [] 1) in
  points (fst s) = 12%Z
  /\ messageHTML (snd (endGame s)) = StillThirsty
  /\ headline (messageHTML (snd (endGame s)))
     = "You still look thirsty, have another try!"%string.
Proof.
  assert (H : messageHTML
                (snd (endGame
                        (mkGame 0 100 (4 + 0.7 + 0.7) 0 12 false 0 None [] None,
                         mkBrowser 100 0 12 Welcome false [0%nat] [] 1)))
              = StillThirsty).
  { apply (proj1 (proj2 endGame_message_threshold)). reflexivity. }
  cbv zeta. rewrite H. repeat split; reflexivity.
Defined.

(** ** [handleMotion] *)

Lemma handleMotion_absent (beta : Js.Value) (now1 now2 : Z) (s : St) :
  beta = Js.Null \/ beta = Js.Undefined -> handleMotion beta now1 now2 s = s.
Proof.
  intros [-> | ->]; destruct s as [g b]; reflexivity.
Qed.

(** A number gets past the guard of [handleMotion], zero included. *)
Lemma guard_number (x : Q) :
  Js.lnot (Js.Num x) && Js.strictNeq0 (Js.Num x) = false.
Proof. simpl. destruct (Qeq_bool x 0); reflexivity. Qed.

(** The two ways through [handleMotion] for a number. *)
Lemma handleMotion_number (x : Q) (now1 now2 : Z) (g : Game) (b : Browser) :
  let g1 := set_recentBetas (pushBeta x (recentBetas g)) g in
  handleMotion (Js.Num x) now1 now2 (g, b) =
  if Qltb 8 (movement (pushBeta x (recentBetas g)))
     && (200 <? now1 - lastTiltTime g)%Z
  then (set_lastTiltTime now2 (fst (checkHit (g1, b))), snd (checkHit (g1, b)))
  else (g1, b).
Proof.
  intros g1. unfold handleMotion. rewrite guard_number.
  cbn [recentBetas set_recentBetas lastTiltTime].
  destruct (_ && _); [|reflexivity].
  fold g1. destruct (checkHit (g1, b)); reflexivity.
Qed.

Lemma cleanup_recentBetas (s : St) :
  recentBetas (fst (cleanup s)) = recentBetas (fst s).
Proof.
  destruct s as [g b]. unfold cleanup.
  destruct (animationFrameId g); reflexivity.
Qed.

Lemma checkHit_recentBetas (s : St) :
  recentBetas (fst (checkHit s)) = recentBetas (fst s).
Proof.
  destruct s as [g b]. unfold checkHit.
  destruct (isInTargetZone (rotation g)).
  - cbn [points set_points].
    destruct (Z.rem (points g + 1) 5 =? 0)%Z; reflexivity.
  - cbn [lives set_lives].
    destruct (lives g - 1 <=? 0)%Z; [|reflexivity].
    rewrite endGame_fst, cleanup_recentBetas. reflexivity.
Qed.

Lemma pushBeta_newest (x : Q) (w : list Q) :
  exists older, pushBeta x w = older ++ [x].
Proof.
  unfold pushBeta. destruct w as [|a w]; simpl.
  - exists []. reflexivity.
  - destruct (3 <? _)%nat; [exists w | exists (a :: w)]; reflexivity.
Qed.

Lemma handleMotion_window (beta : Js.Value) (now1 now2 : Z) (s : St) :
  recentBetas (fst (handleMotion beta now1 now2 s)) =
  match beta with
  | Js.Num x => pushBeta x (recentBetas (fst s))
  | _ => recentBetas (fst s)
  end.
Proof.
  destruct s as [g b].
  destruct beta as [| |x]; try reflexivity.
  rewrite handleMotion_number.
  destruct (_ && _); [|reflexivity].
  cbn [fst recentBetas set_lastTiltTime].
  rewrite checkHit_recentBetas. reflexivity.
Qed.

(** C9. A sample whose [beta] is [null] or [undefined] leaves the whole state
    as it is; a [beta] of 0 is let in and becomes the newest entry of the
    window. *)
Theorem handleMotion_ignores_absent_beta :
  forall (now1 now2 : Z) (s : St),
    handleMotion Js.Null now1 now2 s = s
    /\ handleMotion Js.Undefined now1 now2 s = s
    /\ recentBetas (fst (handleMotion (Js.Num 0) now1 now2 s))
       = pushBeta 0 (recentBetas (fst s))
    /\ exists older,
        recentBetas (fst (handleMotion (Js.Num 0) now1 now2 s)) = older ++ [0].
Proof.
  intros now1 now2 s.
  split; [apply handleMotion_absent; auto|].
  split; [apply handleMotion_absent; auto|].
  rewrite handleMotion_window.
  split; [reflexivity | apply pushBeta_newest].
Qed.

(** ** The sliding window *)

Section Lastn.
Context {A : Type}.

Lemma lastn_length (n : nat) (l : list A) :
  length (lastn n l) = Nat.min n (length l).
Proof. unfold lastn. rewrite length_skipn. lia. Qed.

Lemma lastn_all (n : nat) (l : list A) :
  (length l <= n)%nat -> lastn n l = l.
Proof.
  intros H. unfold lastn.
  replace (length l - n)%nat with 0%nat by lia. reflexivity.
Qed.

Lemma lastn_app_lastn (n : nat) (l r : list A) :
  lastn n (lastn n l ++ r) = lastn n (l ++ r).
Proof.
  destruct (Nat.le_gt_cases (length l) n) as [Hle | Hgt].
  - rewrite (lastn_all n l Hle). reflexivity.
  - unfold lastn at 1 3. rewrite !length_app, lastn_length.
    replace (Nat.min n (length l) + length r - n)%nat
      with (length r) by lia.
    replace (length l + length r - n)%nat
      with (length r + (length l - n))%nat by lia.
    rewrite <- skipn_skipn. f_equal.
    unfold lastn. rewrite skipn_app.
    replace (length l - n - length l)%nat with 0%nat by lia.
    reflexivity.
Qed.
End Lastn.

Lemma pushBeta_lastn (x : Q) (w : list Q) :
  (length w <= 3)%nat -> pushBeta x w = lastn 3 (w ++ [x]).
Proof.
  intros H. unfold pushBeta, lastn. rewrite length_app. simpl length.
  destruct (Nat.ltb_spec 3 (length w + 1)) as [Hlt | Hge].
  - replace (length w + 1 - 3)%nat with 1%nat by lia.
    destruct w; reflexivity.
  - replace (length w + 1 - 3)%nat with 0%nat by lia. reflexivity.
Qed.

Lemma gameLoop_recentBetas (s : St) :
  recentBetas (fst (gameLoop s)) = recentBetas (fst s).
Proof.
  destruct s as [g b]. unfold gameLoop.
  destruct (animationFrameId g); cbn [isGameOver set_animationFrameId];
    destruct (isGameOver g); reflexivity.
Qed.

Lemma call_window (c : Callback) (s : St) :
  (length (recentBetas (fst s)) <= 3)%nat ->
  recentBetas (fst (call c s)) = lastn 3 (recentBetas (fst s) ++ samples [c]).
Proof.
  intros H. destruct c as [|beta now1 now2]; simpl.
  - rewrite gameLoop_recentBetas, app_nil_r, lastn_all; auto.
  - rewrite handleMotion_window.
    destruct beta; try (rewrite app_nil_r, lastn_all; auto).
    apply pushBeta_lastn, H.
Qed.

Lemma samples_cons (c : Callback) (cs : list Callback) :
  samples (c :: cs) = samples [c] ++ samples cs.
Proof. destruct c as [|[| |x] ? ?]; reflexivity. Qed.

Lemma calls_window (cs : list Callback) (s : St) :
  (length (recentBetas (fst s)) <= 3)%nat ->
  recentBetas (fst (calls cs s)) = lastn 3 (recentBetas (fst s) ++ samples cs).
Proof.
  revert s. induction cs as [|c cs IH]; intros s H.
  - simpl. rewrite app_nil_r, lastn_all; auto.
  - change (calls (c :: cs) s) with (calls cs (call c s)).
    pose proof (call_window c s H) as Hc.
    rewrite IH.
    + rewrite Hc, lastn_app_lastn, <- app_assoc, <- samples_cons.
      reflexivity.
    + rewrite Hc, lastn_length. lia.
Qed.

(** C6. Whatever callbacks reach a game whose window starts empty, the window
    holds at most 3 entries, and they are the last samples let in, oldest
    first. *)
Theorem window_holds_latest_samples :
  forall (cs : list Callback) (s : St),
    recentBetas (fst s) = [] ->
    (length (recentBetas (fst (calls cs s))) <= 3)%nat
    /\ recentBetas (fst (calls cs s)) = lastn 3 (samples cs).
Proof.
  intros cs s H0.
  assert (Hw : recentBetas (fst (calls cs s)) = lastn 3 (samples cs)).
  { rewrite calls_window by (rewrite H0; simpl; lia).
    rewrite H0. reflexivity. }
  split; [|exact Hw].
  rewrite Hw, lastn_length. lia.
Qed.

Lemma window_holds_latest_samples_witness :
  let s := construct 0 blankPage in
  let cs := [Tilt (Js.Num 10) 1000 1000; Tick; Tilt Js.Null 1020 1020;
             Tilt (Js.Num 12) 1040 1040; Tilt (Js.Num 0) 1060 1060;
             Tilt (Js.Num 25) 1080 1081; Tick] in
  recentBetas (fst s) = []
  /\ recentBetas (fst (calls cs s)) = [12; 0; 25].
Proof.
  intros s cs. split; [reflexivity|].
  exact (proj2 (window_holds_latest_samples cs s eq_refl)).
Defined.

(** ** The gesture detector *)

Lemma Qltb_lt (x y : Q) : Qltb x y = true <-> x < y.
Proof.
  unfold Qltb. rewrite negb_true_iff.
  split; intros H.
  - apply Qnot_le_lt. intros Hle. apply Qle_bool_iff in Hle. congruence.
  - destruct (Qle_bool y x) eqn:E; [|reflexivity].
    apply Qle_bool_iff in E. lra.
Qed.

Lemma gameLoop_score (s : St) :
  points (fst (gameLoop s)) = points (fst s)
  /\ lives (fst (gameLoop s)) = lives (fst s)
  /\ lastTiltTime (fst (gameLoop s)) = lastTiltTime (fst s).
Proof.
  destruct s as [g b]. unfold gameLoop.
  destruct (animationFrameId g); cbn [isGameOver set_animationFrameId];
    destruct (isGameOver g); auto.
Qed.

Lemma ticks_lastTiltTime (n : nat) (s : St) :
  lastTiltTime (fst (ticks n s)) = lastTiltTime (fst s).
Proof.
  induction n as [|n IH]; [reflexivity|].
  unfold ticks in *. simpl.
  destruct (gameLoop_score (Nat.iter n gameLoop s)) as (_ & _ & Ht).
  congruence.
Qed.

(** [handleMotion] evaluates a hit only on the branch guarded by the test. *)
Lemma handleMotion_evaluated (beta : Js.Value) (now1 now2 : Z) (s : St) :
  evaluated s (handleMotion beta now1 now2 s) ->
  exists x, beta = Js.Num x
    /\ Qltb 8 (movement (pushBeta x (recentBetas (fst s)))) = true
    /\ (200 <? now1 - lastTiltTime (fst s))%Z = true
    /\ lastTiltTime (fst (handleMotion beta now1 now2 s)) = now2.
Proof.
  destruct s as [g b]. intros Hev.
  destruct beta as [| |x];
    try (rewrite handleMotion_absent in Hev by auto;
         destruct Hev as [H|H]; now elim H).
  exists x. split; [reflexivity|].
  rewrite handleMotion_number in *. cbn [fst] in *.
  destruct (Qltb 8 _); [|destruct Hev as [H|H]; now elim H].
  destruct (200 <? _)%Z; [|destruct Hev as [H|H]; now elim H].
  auto.
Qed.

(** And on that branch it always does. *)
Lemma handleMotion_fires (x : Q) (now1 now2 : Z) (s : St) :
  8 < movement (pushBeta x (recentBetas (fst s))) ->
  (200 < now1 - lastTiltTime (fst s))%Z ->
  evaluated s (handleMotion (Js.Num x) now1 now2 s).
Proof.
  destruct s as [g b]. cbn [fst]. intros Hm Ht.
  rewrite handleMotion_number.
  apply Qltb_lt in Hm. apply Z.ltb_lt in Ht. rewrite Hm, Ht.
  destruct (checkHit_evaluated
              (set_recentBetas (pushBeta x (recentBetas g)) g, b)) as [H|H];
    [left | right]; exact H.
Qed.

(** The test on the pause is strict: 200 ms after the last accepted gesture
    is still too early. *)
Lemma pause_of_200_is_too_short (x : Q) (now2 : Z) (s : St) :
  ~ evaluated s
      (handleMotion (Js.Num x) (lastTiltTime (fst s) + 200) now2 s).
Proof.
  intros Hev.
  destruct (handleMotion_evaluated _ _ _ _ Hev) as (_ & _ & _ & Ht & _).
  apply Z.ltb_lt in Ht. lia.
Qed.

(** C1. [handleMotion] evaluates a hit only when the movement over the window
    exceeds 8 degrees and at least 200 ms have passed since the last accepted
    gesture; of two gestures delivered 150 ms apart, with any number of
    ticks in between, at most one is evaluated. *)
Theorem gesture_needs_movement_and_pause :
  (forall (beta : Js.Value) (now1 now2 : Z) (s : St),
      evaluated s (handleMotion beta now1 now2 s) ->
      exists x, beta = Js.Num x
        /\ 8 < movement (pushBeta x (recentBetas (fst s)))
        /\ (200 <= now1 - lastTiltTime (fst s))%Z)
  /\ (forall (beta1 beta2 : Js.Value) (t1 t1' t2 t2' : Z) (n : nat) (s : St),
        (t1 <= t1')%Z -> t2 = (t1 + 150)%Z ->
        let s1 := handleMotion beta1 t1 t1' s in
        let s1' := ticks n s1 in
        let s2 := handleMotion beta2 t2 t2' s1' in
        ~ (evaluated s s1 /\ evaluated s1' s2)).
Proof.
  split.
  - intros beta now1 now2 s Hev.
    destruct (handleMotion_evaluated _ _ _ _ Hev) as (x & -> & Hm & Ht & _).
    exists x. split; [reflexivity|]. split.
    + apply Qltb_lt, Hm.
    + apply Z.ltb_lt in Ht. lia.
  - intros beta1 beta2 t1 t1' t2 t2' n s Hmono -> s1 s1' s2 [Hev1 Hev2].
    destruct (handleMotion_evaluated _ _ _ _ Hev1) as (_ & _ & _ & _ & Hstamp).
    destruct (handleMotion_evaluated _ _ _ _ Hev2) as (_ & _ & _ & Ht & _).
    unfold s1' in Ht. rewrite ticks_lastTiltTime in Ht.
    fold s1 in Hstamp. rewrite Hstamp in Ht.
    apply Z.ltb_lt in Ht. lia.
Qed.

Lemma gesture_needs_movement_and_pause_witness :
  let s := start (construct 0 blankPage) in
  let s0 := handleMotion (Js.Num 10) 1000 1000 s in
  let s1 := handleMotion (Js.Num 30) 1020 1021 s0 in
  let s2 := handleMotion (Js.Num 50) 1170 1171 (ticks 9 s1) in
  (1020 <= 1021)%Z /\ 1170%Z = (1020 + 150)%Z
  /\ evaluated s0 s1
  /\ (200 <= 1020 - lastTiltTime (fst s0))%Z
  /\ ~ evaluated (ticks 9 s1) s2.
Proof.
  intros s s0 s1 s2.
  assert (H1 : evaluated s0 s1).
  { apply handleMotion_fires; [reflexivity | vm_compute; reflexivity]. }
  split; [lia|]. split; [reflexivity|]. split; [exact H1|].
  split.
  { destruct (proj1 gesture_needs_movement_and_pause
                (Js.Num 30) 1020%Z 1021%Z s0 H1) as (x & _ & _ & Ht).
    exact Ht. }
  intros H2.
  apply (proj2 gesture_needs_movement_and_pause
           (Js.Num 30) (Js.Num 50) 1020%Z 1021%Z 1170%Z 1171%Z 9%nat s0);
    [lia | reflexivity | split; assumption].
Defined.

(** C10. The detector looks at the signed movement, newest minus oldest: a
    hit is evaluated only when it is above +8.  A movement of 8 or less, so
    every negative one whatever its size, changes nothing but the window. *)
Theorem gesture_is_directional :
  (forall (beta : Js.Value) (now1 now2 : Z) (s : St),
      evaluated s (handleMotion beta now1 now2 s) ->
      exists x, beta = Js.Num x
        /\ 8 < movement (pushBeta x (recentBetas (fst s))))
  /\ (forall (x : Q) (now1 now2 : Z) (s : St),
        movement (pushBeta x (recentBetas (fst s))) <= 8 ->
        handleMotion (Js.Num x) now1 now2 s
        = (set_recentBetas (pushBeta x (recentBetas (fst s))) (fst s), snd s))
  /\ (forall (x : Q) (now1 now2 : Z) (s : St),
        movement (pushBeta x (recentBetas (fst s))) < 0 ->
        ~ evaluated s (handleMotion (Js.Num x) now1 now2 s))
  /\ (forall (x : Q) (now1 now2 : Z) (s : St),
        movement (pushBeta x (recentBetas (fst s))) <= - (8) ->
        ~ evaluated s (handleMotion (Js.Num x) now1 now2 s)).
Proof.
  assert (Hup : forall beta now1 now2 s,
             evaluated s (handleMotion beta now1 now2 s) ->
             exists x, beta = Js.Num x
               /\ 8 < movement (pushBeta x (recentBetas (fst s)))).
  { intros beta now1 now2 s Hev.
    destruct (handleMotion_evaluated _ _ _ _ Hev) as (x & -> & Hm & _).
    exists x. split; [reflexivity | apply Qltb_lt, Hm]. }
  assert (Hno : forall x now1 now2 s,
             movement (pushBeta x (recentBetas (fst s))) <= 8 ->
             ~ evaluated s (handleMotion (Js.Num x) now1 now2 s)).
  { intros x now1 now2 s Hm Hev.
    destruct (Hup _ _ _ _ Hev) as (y & Hy & Hlt).
    injection Hy as <-. lra. }
  split; [exact Hup|]. split; [|split].
  - intros x now1 now2 [g b] Hm. cbn [fst snd] in *.
    rewrite handleMotion_number.
    destruct (Qltb 8 _) eqn:E; [|reflexivity].
    apply Qltb_lt in E. lra.
  - intros x now1 now2 s Hm. apply Hno. lra.
  - intros x now1 now2 s Hm. apply Hno. lra.
Qed.

Lemma gesture_is_directional_witness :
  let s := handleMotion (Js.Num 30) 1000 1000 (start (construct 0 blankPage)) in
  movement (pushBeta 10 (recentBetas (fst s))) == - (20)
  /\ (200 < 5000 - lastTiltTime (fst s))%Z
  /\ ~ evaluated s (handleMotion (Js.Num 10) 5000 5000 s).
Proof.
  intros s. split; [reflexivity|]. split; [reflexivity|].
  apply (proj1 (proj2 (proj2 gesture_is_directional))).
  vm_compute. reflexivity.
Defined.

(** ** Invariants of the reachable worlds *)

Lemma isListening_nil (g : Game) (b : Browser) :
  orientationListeners b = [] -> isListening g b = false.
Proof. unfold isListening. intros ->. reflexivity. Qed.

Lemma filter_self (h : nat) (l : list nat) :
  l = [] \/ l = [h] -> filter (fun k => negb (Nat.eqb k h)) l = [].
Proof.
  intros [-> | ->]; simpl; [|rewrite Nat.eqb_refl]; reflexivity.
Qed.

Lemma cleanup_listeners (g : Game) (b : Browser) :
  orientationListeners b = [] \/ orientationListeners b = [self g] ->
  orientationListeners (snd (cleanup (g, b))) = [].
Proof.
  intros H. unfold cleanup.
  destruct (animationFrameId g); simpl; apply filter_self, H.
Qed.

Lemma cleanup_inv (g : Game) (b : Browser) :
  (0 <= lives g)%Z ->
  orientationListeners b = [] \/ orientationListeners b = [self g] ->
  StInv (cleanup (g, b)).
Proof.
  intros Hl Hls.
  pose proof (cleanup_listeners g b Hls) as Hnil.
  pose proof (cleanup_score (g, b)) as [Hlives _].
  pose proof (cleanup_over (g, b)) as Hover.
  assert (Hrot : rotation (fst (cleanup (g, b))) = 0
                 /\ speed (fst (cleanup (g, b))) = 4).
  { unfold cleanup. destruct (animationFrameId g); split; reflexivity. }
  destruct Hrot as [Hrot Hsp].
  destruct (cleanup (g, b)) as [g' b']. simpl in *.
  constructor; simpl.
  - rewrite Hrot. lra.
  - rewrite Hrot. lra.
  - rewrite Hsp. lra.
  - lia.
  - intros _. exact Hover.
  - rewrite (isListening_nil _ _ Hnil). discriminate.
  - left. exact Hnil.
Qed.

Lemma endGame_inv (g : Game) (b : Browser) :
  (0 <= lives g)%Z ->
  orientationListeners b = [] \/ orientationListeners b = [self g] ->
  StInv (endGame (g, b)).
Proof.
  intros Hl Hls. pose proof (cleanup_inv g b Hl Hls) as H.
  unfold endGame. destruct (cleanup (g, b)) as [g' b'].
  destruct H; constructor; assumption.
Qed.

Lemma checkHit_inv (s : St) :
  StInv s -> isListening (fst s) (snd s) = true -> StInv (checkHit s).
Proof.
  destruct s as [g b]. unfold StInv. cbn [fst snd]. intros H Hon.
  destruct H as [H1 H2 H3 H4 H5 H6 H7].
  destruct (H6 Hon) as [Hrun Hpos].
  unfold checkHit. destruct (isInTargetZone (rotation g)).
  - cbn [points set_points].
    pose proof step_pos as Hc.
    destruct (Z.rem (points g + 1) 5 =? 0)%Z;
      constructor; cbn; try assumption; try lra; auto.
    apply (add_lower _ _ 4); [lia | exact H3 | lra].
  - cbn [lives set_lives].
    destruct (Z.leb_spec (lives g - 1) 0).
    + apply endGame_inv; cbn; [lia | exact H7].
    + constructor; cbn; try assumption; try lia.
      intros _. split; [exact Hrun | lia].
Qed.

Lemma checkHit_self (s : St) : self (fst (checkHit s)) = self (fst s).
Proof.
  destruct s as [g b]. unfold checkHit.
  destruct (isInTargetZone (rotation g)).
  - cbn [points set_points].
    destruct (Z.rem (points g + 1) 5 =? 0)%Z; reflexivity.
  - cbn [lives set_lives].
    destruct (lives g - 1 <=? 0)%Z; [|reflexivity].
    rewrite endGame_fst. unfold cleanup. cbn [self set_lives].
    destruct (animationFrameId _); reflexivity.
Qed.

Lemma handleMotion_inv (beta : Js.Value) (now1 now2 : Z) (s : St) :
  StInv s -> isListening (fst s) (snd s) = true ->
  StInv (handleMotion beta now1 now2 s).
Proof.
  intros H Hon. destruct s as [g b].
  destruct beta as [| |x]; try (rewrite handleMotion_absent by auto; exact H).
  rewrite handleMotion_number.
  set (g1 := set_recentBetas (pushBeta x (recentBetas g)) g).
  assert (H1 : StInv (g1, b)).
  { destruct H; constructor; assumption. }
  destruct (_ && _); [|exact H1].
  pose proof (checkHit_inv (g1, b) H1 Hon) as H2.
  destruct (checkHit (g1, b)) as [g2 b2].
  destruct H2; constructor; assumption.
Qed.

Lemma gameLoop_inv (s : St) : StInv s -> StInv (gameLoop s).
Proof.
  destruct s as [g b]. unfold StInv. cbn [fst snd].
  intros [H1 H2 H3 H4 H5 H6 H7]. unfold gameLoop.
  assert (Hr : 0 <= Js.add (rotation g) (speed g)).
  { apply (add_lower _ _ 0); [lia | exact H1 | lra]. }
  destruct (rem_bounds _ Hr) as [Hlo Hhi].
  destruct (animationFrameId g); cbn [isGameOver set_animationFrameId];
    destruct (isGameOver g) eqn:Hov;
    constructor; cbn -[Js.rem]; rewrite ?Hov; assumption.
Qed.

Lemma gameLoop_frame (s : St) :
  self (fst (gameLoop s)) = self (fst s)
  /\ orientationListeners (snd (gameLoop s)) = orientationListeners (snd s).
Proof.
  destruct s as [g b]. unfold gameLoop.
  destruct (animationFrameId g); cbn [isGameOver set_animationFrameId];
    destruct (isGameOver g); split; reflexivity.
Qed.

Lemma resubscribe (h : nat) (b : Browser) :
  orientationListeners b = [] \/ orientationListeners b = [h] ->
  orientationListeners (addEventListener h (removeEventListener h b)) = [h].
Proof.
  intros H. unfold addEventListener, removeEventListener.
  cbn [orientationListeners set_orientationListeners].
  rewrite (filter_self h _ H). reflexivity.
Qed.

Lemma start_inv (g : Game) (b : Browser) :
  orientationListeners b = [] \/ orientationListeners b = [self g] ->
  StInv (start (g, b))
  /\ orientationListeners (snd (start (g, b))) = [self g].
Proof.
  intros Hls. unfold start.
  set (pre := match animationFrameId g with
              | Some id => (set_animationFrameId None g,
                            cancelAnimationFrame id b)
              | None => (g, b)
              end).
  assert (Hpre : self (fst pre) = self g
                 /\ orientationListeners (snd pre) = orientationListeners b).
  { subst pre. destruct (animationFrameId g); split; reflexivity. }
  destruct pre as [g0 b0]. cbn [fst snd] in Hpre. destruct Hpre as [Hs Hl].
  match goal with |- StInv (gameLoop (?g1, ?b1)) /\ _ =>
    set (s1 := (g1, b1)) end.
  assert (Hsub : orientationListeners (snd s1) = [self g]).
  { subst s1. cbn [snd self set_speed set_rotation set_isGameOver set_points
                   set_lives]. rewrite Hs.
    apply resubscribe. cbn. rewrite Hl. exact Hls. }
  assert (Hinv : StInv s1).
  { constructor; rewrite ?Hsub; subst s1; cbn; try lra; try lia;
      try discriminate; auto.
    right. rewrite Hs. reflexivity. }
  destruct (gameLoop_frame s1) as [_ Hframe].
  split; [apply gameLoop_inv, Hinv | congruence].
Qed.

Lemma GameInv_listeners (g : Game) (b b' : Browser) :
  orientationListeners b' = orientationListeners b ->
  GameInv g b -> GameInv g b'.
Proof.
  intros E [H1 H2 H3 H4 H5 H6 H7].
  constructor; try assumption; unfold isListening in *; rewrite E; assumption.
Qed.

Lemma construct_fresh (id : nat) (b : Browser) :
  fst (construct id b) = mkGame id 0 4 3 0 false 0 None [] None
  /\ orientationListeners (snd (construct id b)) = orientationListeners b.
Proof. split; reflexivity. Qed.

Lemma construct_inv (id : nat) (b : Browser) :
  orientationListeners b = [] -> StInv (construct id b).
Proof.
  intros Hnil. destruct (construct_fresh id b) as [Hg Hl].
  unfold StInv. rewrite Hg.
  constructor.
  - cbn. lra.
  - cbn. lra.
  - cbn. lra.
  - cbn. lia.
  - cbn. discriminate.
  - rewrite (isListening_nil _ _ (eq_trans Hl Hnil)). discriminate.
  - left. congruence.
Qed.

Lemma loaded_inv : WorldInv loaded.
Proof. apply (construct_inv 0 blankPage). reflexivity. Qed.

Lemma startGame_inv (p : Permission) (w : World) :
  WorldInv w -> WorldInv (startGame p w).
Proof.
  intros H. unfold startGame.
  destruct (mayStart p); [|exact H].
  unfold WorldInv in H. destruct (currentGame w) as [g|] eqn:Eg.
  - destruct (start_inv g (set_messageShown false (page w))) as [Hinv _].
    { destruct H. assumption. }
    destruct (start _) as [g' b']. exact Hinv.
  - unfold WorldInv. rewrite Eg. exact H.
Qed.

Lemma restartGame_page (w : World) :
  WorldInv w ->
  orientationListeners
    (match currentGame w with
     | Some g => snd (cleanup (g, page w))
     | None => page w
     end) = [].
Proof.
  unfold WorldInv. destruct (currentGame w) as [g|]; intros H.
  - apply cleanup_listeners. destruct H. assumption.
  - exact H.
Qed.

Lemma restartGame_inv (w : World) : WorldInv w -> WorldInv (restartGame w).
Proof.
  intros H. pose proof (restartGame_page w H) as Hnil.
  unfold restartGame.
  set (b := match currentGame w with
            | Some g => snd (cleanup (g, page w))
            | None => page w
            end) in *.
  pose proof (construct_inv (nextGame w) b Hnil) as Hinv.
  destruct (construct (nextGame w) b) as [g' b']. exact Hinv.
Qed.

Lemma step_inv (e : Event) (w : World) : WorldInv w -> WorldInv (step e w).
Proof.
  intros H. destruct e as [p | p | | beta now1 now2 | id]; cbn [step].
  - destruct (clickArmed w); [|exact H]. apply startGame_inv. exact H.
  - destruct (touchArmed w); [|exact H]. apply startGame_inv. exact H.
  - apply restartGame_inv, H.
  - unfold WorldInv in H. destruct (currentGame w) as [g|] eqn:Eg.
    + destruct (isListening g (page w)) eqn:Hon.
      * pose proof (handleMotion_inv beta now1 now2 (g, page w) H Hon) as Hinv.
        destruct (handleMotion _ _ _ _) as [g' b']. exact Hinv.
      * unfold WorldInv. rewrite Eg. exact H.
    + unfold WorldInv. rewrite Eg. exact H.
  - destruct (find _ _) as [[id' owner]|]; [|exact H].
    unfold WorldInv in H. destruct (currentGame w) as [g|] eqn:Eg.
    + assert (Hc : StInv (g, cancelAnimationFrame id (page w))).
      { apply (GameInv_listeners g (page w)); [reflexivity | exact H]. }
      destruct (Nat.eqb (self g) owner).
      * pose proof (gameLoop_inv _ Hc) as Hinv.
        destruct (gameLoop _) as [g' b']. exact Hinv.
      * exact Hc.
    + exact H.
Qed.

Lemma reachable_run (es : list Event) (w : World) :
  reachable w -> reachable (run es w).
Proof.
  revert w. induction es as [|e es IH]; intros w H; [exact H|].
  apply (IH (step e w)). constructor. exact H.
Qed.

Lemma reachable_inv (w : World) : reachable w -> WorldInv w.
Proof.
  induction 1 as [|e w _ IH]; [exact loaded_inv | apply step_inv, IH].
Qed.

(** ** The pending animation frame *)

Lemma cancelPending_frames (s : St) :
  FrameInv s ->
  frameRequests (snd (cancelPending s)) = []
  /\ self (fst (cancelPending s)) = self (fst s).
Proof.
  destruct s as [g b]. unfold FrameInv, cancelPending. cbn [fst snd].
  intros [E | (id & Eid & E)].
  - destruct (animationFrameId g); cbn; rewrite ?E; auto.
  - rewrite Eid. cbn. rewrite E. cbn. rewrite Pos.eqb_refl. auto.
Qed.

Lemma cleanup_cancelPending (g : Game) (b : Browser) :
  exists g0 b0,
    cancelPending (g, removeEventListener (self g) b) = (g0, b0)
    /\ cleanup (g, b)
       = (set_speed 4 (set_rotation 0 (set_isGameOver true g0)),
          set_transform 0 b0).
Proof.
  unfold cleanup, cancelPending. cbn [fst snd].
  destruct (animationFrameId g); eexists; eexists; split; reflexivity.
Qed.

Lemma cleanup_frames (s : St) :
  FrameInv s -> frameRequests (snd (cleanup s)) = [].
Proof.
  destruct s as [g b]. intros H.
  destruct (cleanup_cancelPending g b) as (g0 & b0 & Ec & ->).
  destruct (cancelPending_frames (g, removeEventListener (self g) b)) as [E _].
  { exact H. }
  rewrite Ec in E. exact E.
Qed.

Lemma frames_nil_inv (s : St) : frameRequests (snd s) = [] -> FrameInv s.
Proof. intros E. left. exact E. Qed.

Lemma gameLoop_cancelPending (s : St) :
  gameLoop s =
  let '(g, b) := cancelPending s in
  if isGameOver g then (g, b)
  else
    (set_animationFrameId (Some (nextFrame b))
       (set_rotation (Js.rem (Js.add (rotation g) (speed g)) 360) g),
     snd (requestAnimationFrame (self g)
            (set_transform (Js.rem (Js.add (rotation g) (speed g)) 360) b))).
Proof.
  destruct s as [g b]. unfold gameLoop, cancelPending. cbn [fst snd].
  destruct (animationFrameId g); reflexivity.
Qed.

Lemma gameLoop_frames (s : St) : FrameInv s -> FrameInv (gameLoop s).
Proof.
  intros H. rewrite gameLoop_cancelPending.
  destruct (cancelPending_frames s H) as [E _].
  destruct (cancelPending s) as [g b]. cbn [fst snd] in E.
  destruct (isGameOver g).
  - left. exact E.
  - right. exists (nextFrame b). cbn. rewrite E. auto.
Qed.

Lemma addEventListener_frames (h : nat) (b : Browser) :
  frameRequests (addEventListener h b) = frameRequests b.
Proof.
  unfold addEventListener. destruct (existsb _ _); reflexivity.
Qed.

Lemma start_frames (s : St) : FrameInv s -> FrameInv (start s).
Proof.
  destruct s as [g b]. intros H.
  destruct (cancelPending_frames (g, b) H) as [E _].
  unfold start. unfold cancelPending in E. cbn [fst snd] in E.
  destruct (animationFrameId g); apply gameLoop_frames, frames_nil_inv;
    cbn [snd]; rewrite addEventListener_frames; exact E.
Qed.

Lemma checkHit_frames (s : St) : FrameInv s -> FrameInv (checkHit s).
Proof.
  destruct s as [g b]. intros H. unfold checkHit.
  destruct (isInTargetZone (rotation g)).
  - cbn [points set_points].
    destruct (Z.rem (points g + 1) 5 =? 0)%Z; exact H.
  - cbn [lives set_lives].
    destruct (lives g - 1 <=? 0)%Z; [|exact H].
    apply frames_nil_inv.
    pose proof (cleanup_frames
                  (set_lives (lives g - 1) g,
                   set_livesText (lives g - 1) b) H) as E.
    unfold endGame. destruct (cleanup _) as [g' b']. exact E.
Qed.

Lemma handleMotion_frames (beta : Js.Value) (now1 now2 : Z) (s : St) :
  FrameInv s -> FrameInv (handleMotion beta now1 now2 s).
Proof.
  intros H. destruct s as [g b].
  destruct beta as [| |x]; try (rewrite handleMotion_absent by auto; exact H).
  rewrite handleMotion_number.
  set (g1 := set_recentBetas (pushBeta x (recentBetas g)) g).
  destruct (_ && _); [|exact H].
  pose proof (checkHit_frames (g1, b) H) as H2.
  destruct (checkHit (g1, b)) as [g2 b2]. exact H2.
Qed.

Lemma step_frames (e : Event) (w : World) :
  WorldFrameInv w -> WorldFrameInv (step e w).
Proof.
  assert (Hstart : forall p w, WorldFrameInv w -> WorldFrameInv (startGame p w)).
  { intros p v H. unfold startGame. destruct (mayStart p); [|exact H].
    unfold WorldFrameInv in *. destruct (currentGame v) as [g|] eqn:Eg.
    - pose proof (start_frames (g, set_messageShown false (page v)) H) as H2.
      destruct (start _) as [g' b']. exact H2.
    - rewrite Eg. exact H. }
  intros H. destruct e as [p | p | | beta now1 now2 | id]; cbn [step].
  - destruct (clickArmed w); [|exact H]. apply Hstart. exact H.
  - destruct (touchArmed w); [|exact H]. apply Hstart. exact H.
  - unfold restartGame, WorldFrameInv in *.
    destruct (currentGame w) as [g|];
      [apply cleanup_frames in H|]; left; exact H.
  - unfold WorldFrameInv in *. destruct (currentGame w) as [g|] eqn:Eg.
    + destruct (isListening g (page w)).
      * pose proof (handleMotion_frames beta now1 now2 _ H) as H2.
        destruct (handleMotion _ _ _ _) as [g' b']. exact H2.
      * rewrite Eg. exact H.
    + rewrite Eg. exact H.
  - unfold WorldFrameInv in *.
    destruct (find _ _) as [[id' owner]|] eqn:Ef.
    2:{ exact H. }
    assert (Hnil : frameRequests (cancelAnimationFrame id (page w)) = []).
    { apply find_some in Ef. destruct Ef as [Hin Eid].
      apply Pos.eqb_eq in Eid. cbn [fst] in Eid. subst id'.
      destruct (currentGame w) as [g|].
      - destruct H as [E | (i & _ & E)]; cbn [snd] in E; rewrite E in Hin;
          [destruct Hin|].
        destruct Hin as [Ei | []]. injection Ei as Ei _. subst i.
        cbn. rewrite E. cbn. rewrite Pos.eqb_refl. reflexivity.
      - rewrite H in Hin. destruct Hin. }
    destruct (currentGame w) as [g|].
    + destruct (Nat.eqb (self g) owner).
      * pose proof (gameLoop_frames (g, cancelAnimationFrame id (page w))
                      (or_introl Hnil)) as H2.
        destruct (gameLoop _) as [g' b']. exact H2.
      * left. exact Hnil.
    + exact Hnil.
Qed.

(** In a reachable world at most one frame is pending, and it belongs to the
    current game: no callback of a discarded game is left behind. *)
Lemma reachable_frames (w : World) : reachable w -> WorldFrameInv w.
Proof.
  induction 1 as [|e w _ IH]; [left; reflexivity | apply step_frames, IH].
Qed.

(** ** Speed and rotation during a run *)

Lemma gameLoop_fields (s : St) :
  speed (fst (gameLoop s)) = speed (fst s)
  /\ isGameOver (fst (gameLoop s)) = isGameOver (fst s)
  /\ rotation (fst (gameLoop s))
     = if isGameOver (fst s) then rotation (fst s)
       else Js.rem (Js.add (rotation (fst s)) (speed (fst s))) 360.
Proof.
  destruct s as [g b]. unfold gameLoop.
  destruct (animationFrameId g); cbn [isGameOver set_animationFrameId fst];
    destruct (isGameOver g) eqn:Hov; cbn -[Js.rem]; rewrite ?Hov; auto.
Qed.

Lemma checkHit_fields (s : St) :
  let s' := checkHit s in
  if isInTargetZone (rotation (fst s)) then
    speed (fst s') = (if (Z.rem (points (fst s) + 1) 5 =? 0)%Z
                      then Js.add (speed (fst s)) (Js.round 0.7)
                      else speed (fst s))
    /\ isGameOver (fst s') = isGameOver (fst s)
    /\ rotation (fst s') = rotation (fst s)
  else if (lives (fst s) - 1 <=? 0)%Z then
    isGameOver (fst s') = true
  else
    speed (fst s') = speed (fst s)
    /\ isGameOver (fst s') = isGameOver (fst s)
    /\ rotation (fst s') = rotation (fst s).
Proof.
  destruct s as [g b]. cbn [fst]. unfold checkHit.
  destruct (isInTargetZone (rotation g)).
  - cbn [points set_points].
    destruct (Z.rem (points g + 1) 5 =? 0)%Z; auto.
  - cbn [lives set_lives].
    destruct (lives g - 1 <=? 0)%Z; [|auto].
    rewrite endGame_fst. apply cleanup_over.
Qed.

Lemma checkHit_absorbing (s : St) :
  isGameOver (fst s) = true -> isGameOver (fst (checkHit s)) = true.
Proof.
  intros H. pose proof (checkHit_fields s) as F. cbv zeta in F.
  destruct (isInTargetZone _); [|destruct (_ <=? _)%Z]; intuition congruence.
Qed.

Lemma same_points_no_speedup (s s' : St) :
  points (fst s') = points (fst s) -> ~ speedsUp s s'.
Proof. intros E [[Hp _] _]. lia. Qed.

Lemma handleMotion_running (beta : Js.Value) (now1 now2 : Z) (s : St) :
  let s' := handleMotion beta now1 now2 s in
  isGameOver (fst s') = false ->
  isGameOver (fst s) = false
  /\ rotation (fst s') = rotation (fst s)
  /\ ((speedsUp s s'
       /\ speed (fst s') = Js.add (speed (fst s)) (Js.round 0.7))
      \/ (~ speedsUp s s' /\ speed (fst s') = speed (fst s))).
Proof.
  destruct s as [g b]. intros s'. subst s'.
  destruct beta as [| |x];
    try (rewrite handleMotion_absent by auto; intros Hrun;
         repeat split; auto; right; split; auto;
         apply same_points_no_speedup; reflexivity).
  rewrite handleMotion_number.
  set (g1 := set_recentBetas (pushBeta x (recentBetas g)) g).
  destruct (_ && _).
  2:{ intros Hrun. repeat split; auto. right. split; auto.
      apply same_points_no_speedup. reflexivity. }
  pose proof (checkHit_fields (g1, b)) as F.
  pose proof (checkHit_in_zone (g1, b)) as Hhit.
  pose proof (checkHit_off_zone (g1, b)) as Hmiss.
  cbv zeta in F. unfold wasHit, wasMiss in Hhit, Hmiss.
  destruct (checkHit (g1, b)) as [g2 b2].
  unfold speedsUp, wasHit. cbn [fst snd] in *.
  cbn [isGameOver rotation speed points lives set_lastTiltTime
       set_recentBetas g1] in *.
  destruct (isInTargetZone (rotation g)).
  - destruct F as (Fs & Fo & Fr). destruct (Hhit eq_refl) as [Hp Hl].
    intros Hrun. split; [congruence|]. split; [exact Fr|].
    rewrite Hp.
    destruct (Z.eqb_spec (Z.rem (points g + 1) 5) 0) as [E | E].
    + left. auto.
    + right. split; [tauto | exact Fs].
  - destruct (Hmiss eq_refl) as [Hl Hp].
    destruct (lives g - 1 <=? 0)%Z.
    + intros Hrun. congruence.
    + destruct F as (Fs & Fo & Fr).
      intros Hrun. split; [congruence|]. split; [exact Fr|].
      right. split; [|exact Fs]. intros [[Hp' _] _]. lia.
Qed.

Lemma gameLoop_not_hit (s : St) : ~ speedsUp s (gameLoop s).
Proof.
  apply same_points_no_speedup. apply gameLoop_score.
Qed.

(** The effect of one callback on a game that still runs after it. *)
Lemma call_running (c : Callback) (s : St) :
  isGameOver (fst (call c s)) = false ->
  isGameOver (fst s) = false
  /\ rotation (fst (call c s))
     = match c with
       | Tick => Js.rem (Js.add (rotation (fst s)) (speed (fst s))) 360
       | Tilt _ _ _ => rotation (fst s)
       end
  /\ ((speedsUp s (call c s)
       /\ speed (fst (call c s)) = Js.add (speed (fst s)) (Js.round 0.7))
      \/ (~ speedsUp s (call c s) /\ speed (fst (call c s)) = speed (fst s))).
Proof.
  destruct c as [|beta now1 now2]; cbn [call].
  - intros Hrun. destruct (gameLoop_fields s) as (Fs & Fo & Fr).
    rewrite Fo in Hrun. rewrite Hrun in Fr.
    split; [exact Hrun|]. split; [exact Fr|].
    right. split; [apply gameLoop_not_hit | exact Fs].
  - apply handleMotion_running.
Qed.

Lemma calls_cons (c : Callback) (cs : list Callback) (s : St) :
  calls (c :: cs) s = calls cs (call c s).
Proof. reflexivity. Qed.

Lemma call_absorbing (c : Callback) (s : St) :
  isGameOver (fst s) = true -> isGameOver (fst (call c s)) = true.
Proof.
  intros H. destruct (isGameOver (fst (call c s))) eqn:E; [reflexivity|].
  destruct (call_running c s E) as [H0 _]. congruence.
Qed.

Lemma calls_absorbing (cs : list Callback) (s : St) :
  isGameOver (fst s) = true -> isGameOver (fst (calls cs s)) = true.
Proof.
  revert s. induction cs as [|c cs IH]; intros s H; [exact H|].
  rewrite calls_cons. apply IH, call_absorbing, H.
Qed.

Lemma calls_running_head (c : Callback) (cs : list Callback) (s : St) :
  isGameOver (fst (calls (c :: cs) s)) = false ->
  isGameOver (fst (call c s)) = false.
Proof.
  intros H. destruct (isGameOver (fst (call c s))) eqn:E; [|reflexivity].
  rewrite calls_cons, (calls_absorbing cs _ E) in H. discriminate.
Qed.




Lemma tickSpeeds_cons (c : Callback) (cs : list Callback) (s : St) :
  isGameOver (fst s) = false ->
  tickSpeeds (c :: cs) s
  = match c with
    | Tick => speed (fst s) :: tickSpeeds cs (call c s)
    | Tilt _ _ _ => tickSpeeds cs (call c s)
    end.
Proof.
  intros H. cbn [tickSpeeds]. destruct c; [rewrite H|]; reflexivity.
Qed.

(** The rotation of a game that is still running, from a rotation that is
    a whole number, as long as the ticks advance it by whole numbers: no sum
    is rounded. *)
Lemma calls_rotation (cs : list Callback) (s : St) (n : Z) :
  (0 <= n < 360)%Z -> rotation (fst s) == inject_Z n ->
  forallb whole (tickSpeeds cs s) = true ->
  isGameOver (fst (calls cs s)) = false ->
  0 <= Qsum (tickSpeeds cs s)
  /\ rotation (fst (calls cs s))
     == Js.rem (rotation (fst s) + Qsum (tickSpeeds cs s)) 360.
Proof.
  revert s n. induction cs as [|c cs IH]; intros s n Hn Hrot0 Hw Hrun.
  - assert (Hlo : 0 <= rotation (fst s))
      by (rewrite Hrot0; apply inject_Z_nonneg; lia).
    assert (Hhi : rotation (fst s) < 360)
      by (rewrite Hrot0; apply (inject_Z_below n 360); lia).
    cbn [tickSpeeds Qsum fold_right calls fold_left].
    split; [lra|]. symmetry.
    apply (rem_unique _ _ 0); try lra. change (inject_Z 0) with 0. lra.
  - pose proof (calls_running_head c cs s Hrun) as Hc.
    destruct (call_running c s Hc) as (Hs & Hrot & _).
    rewrite (tickSpeeds_cons c cs s Hs) in *. rewrite calls_cons in *.
    destruct c as [|beta now1 now2].
    + cbn [forallb] in Hw.
      change (Qsum (speed (fst s) :: tickSpeeds cs (call Tick s)))
        with (speed (fst s) + Qsum (tickSpeeds cs (call Tick s))).
      apply andb_prop in Hw. destruct Hw as [Hv Hw].
      destruct (whole_spec _ Hv) as (m & Hm & Ev).
      pose proof (add_whole _ _ n m Hn Hm Hrot0 Ev) as Eadd.
      assert (Esum : Js.add (rotation (fst s)) (speed (fst s))
                     == inject_Z (n + m))
        by (rewrite Eadd, inject_Z_plus, Hrot0, Ev; reflexivity).
      assert (Hr' : rotation (fst (call Tick s)) == inject_Z ((n + m) mod 360))
        by (rewrite Hrot; apply rem_whole; [lia | exact Esum]).
      pose proof (Z.mod_pos_bound (n + m) 360 ltac:(lia)) as Hb.
      destruct (IH _ _ Hb Hr' Hw Hrun) as [Hnn Heq].
      assert (Hlo : 0 <= rotation (fst s))
        by (rewrite Hrot0; apply inject_Z_nonneg; lia).
      assert (Hv0 : 0 <= speed (fst s))
        by (rewrite Ev; apply inject_Z_nonneg; lia).
      split; [lra|]. rewrite Heq, Hrot.
      rewrite rem_add by lra.
      apply rem_eq_compat; lra.
    + destruct (IH _ n Hn (eq_ind_r (fun r => r == inject_Z n) Hrot0 Hrot)
                  Hw Hrun) as [Hnn Heq].
      split; [exact Hnn|]. rewrite Heq, Hrot. reflexivity.
Qed.

Lemma start_first_tick (s : St) :
  exists r : St,
    start s = gameLoop r
    /\ self (fst r) = self (fst s)
    /\ rotation (fst r) = 0 /\ speed (fst r) = 4
    /\ lives (fst r) = 3%Z /\ points (fst r) = 0%Z
    /\ isGameOver (fst r) = false.
Proof.
  destruct s as [g b]. unfold start.
  destruct (animationFrameId g); eexists; (split; [reflexivity|]);
    repeat split; reflexivity.
Qed.


(** ** Lives *)

Lemma ticks_score (n : nat) (s : St) :
  lives (fst (ticks n s)) = lives (fst s).
Proof.
  induction n as [|n IH]; [reflexivity|].
  unfold ticks in *. simpl.
  destruct (gameLoop_score (Nat.iter n gameLoop s)) as (_ & Hl & _).
  congruence.
Qed.

Lemma start_fresh (s : St) :
  lives (fst (start s)) = 3%Z /\ points (fst (start s)) = 0%Z
  /\ speed (fst (start s)) = 4 /\ isGameOver (fst (start s)) = false.
Proof.
  destruct (start_first_tick s) as (r & -> & _ & _ & Hs & Hl & Hp & Ho).
  destruct (gameLoop_score r) as (Ep & El & _).
  destruct (gameLoop_fields r) as (Es & Eo & _).
  repeat split; congruence.
Qed.

(** A miss that leaves no life ends the game. *)
Lemma checkHit_last_life (s : St) :
  isInTargetZone (rotation (fst s)) = false -> (lives (fst s) <= 1)%Z ->
  isGameOver (fst (checkHit s)) = true.
Proof.
  intros Hz Hl. pose proof (checkHit_fields s) as F. cbv zeta in F.
  rewrite Hz in F. destruct (Z.leb_spec (lives (fst s) - 1) 0); [exact F | lia].
Qed.

(** C3. A fresh start has 3 lives, 0 points and speed 4; three hit
    evaluations off the target zone, with any ticks in between, leave 0 lives
    and the game over.  In every reachable world the lives are not negative,
    and a game with 0 lives is over. *)
Theorem three_misses_end_the_game :
  (forall (s0 : St) (n1 n2 n3 : nat),
      let s := start s0 in
      let a1 := ticks n1 s in
      let a2 := ticks n2 (checkHit a1) in
      let a3 := ticks n3 (checkHit a2) in
      (lives (fst s) = 3%Z /\ points (fst s) = 0%Z /\ speed (fst s) = 4)
      /\ (isInTargetZone (rotation (fst a1)) = false ->
          isInTargetZone (rotation (fst a2)) = false ->
          isInTargetZone (rotation (fst a3)) = false ->
          lives (fst (checkHit a3)) = 0%Z
          /\ isGameOver (fst (checkHit a3)) = true))
  /\ (forall (w : World) (g : Game),
        reachable w -> currentGame w = Some g ->
        (0 <= lives g)%Z /\ (lives g = 0%Z -> isGameOver g = true)).
Proof.
  split.
  - intros s0 n1 n2 n3 s a1 a2 a3.
    destruct (start_fresh s0) as (Hl & Hp & Hs & _). fold s in Hl, Hp, Hs.
    split; [auto|]. intros Z1 Z2 Z3.
    destruct (checkHit_off_zone a1 Z1) as [L1 _].
    destruct (checkHit_off_zone a2 Z2) as [L2 _].
    destruct (checkHit_off_zone a3 Z3) as [L3 _].
    assert (E1 : lives (fst a1) = 3%Z).
    { unfold a1. rewrite ticks_score. exact Hl. }
    assert (E2 : lives (fst a2) = 2%Z).
    { unfold a2. rewrite ticks_score. lia. }
    assert (E3 : lives (fst a3) = 1%Z).
    { unfold a3. rewrite ticks_score. lia. }
    split; [lia|]. apply checkHit_last_life; [exact Z3 | lia].
  - intros w g Hr Hg. pose proof (reachable_inv w Hr) as H.
    unfold WorldInv in H. rewrite Hg in H. destruct H. split; assumption.
Qed.

Lemma three_misses_end_the_game_witness :
  let s := start (construct 0 blankPage) in
  let a1 := ticks 6 s in
  let a2 := ticks 2 (checkHit a1) in
  let a3 := ticks 0 (checkHit a2) in
  rotation (fst a1) == 28 /\ rotation (fst a2) == 36
  /\ isInTargetZone (rotation (fst a1)) = false
  /\ isInTargetZone (rotation (fst a2)) = false
  /\ isInTargetZone (rotation (fst a3)) = false
  /\ (lives (fst (checkHit a3)) = 0%Z
      /\ isGameOver (fst (checkHit a3)) = true)
  /\ let w := run [Click NotRequired; AnimationFrame 1; AnimationFrame 2;
                   AnimationFrame 3; AnimationFrame 4; AnimationFrame 5;
                   AnimationFrame 6;
                   DeviceOrientation (Js.Num 10) 1000 1000;
                   DeviceOrientation (Js.Num 30) 1300 1300;
                   DeviceOrientation (Js.Num 50) 1600 1600;
                   DeviceOrientation (Js.Num 70) 1900 1900] loaded in
     reachable w
     /\ match currentGame w with
        | Some g => lives g = 0%Z /\ isGameOver g = true
        | None => False
        end.
Proof.
  intros s a1 a2 a3.
  split; [vm_compute; reflexivity|]. split; [vm_compute; reflexivity|].
  split; [vm_compute; reflexivity|]. split; [vm_compute; reflexivity|].
  split; [vm_compute; reflexivity|].
  split.
  { apply (proj2 (proj1 three_misses_end_the_game (construct 0 blankPage)
                    6%nat 2%nat 0%nat)); vm_compute; reflexivity. }
  intros w.
  assert (Hr : reachable w) by (apply reachable_run; constructor).
  split; [exact Hr|].
  destruct (currentGame w) as [g|] eqn:E; [|vm_compute in E; discriminate].
  destruct (proj2 three_misses_end_the_game w g Hr E) as [_ Hov].
  assert (Hl : lives g = 0%Z).
  { vm_compute in E. injection E as <-. reflexivity. }
  split; [exact Hl | exact (Hov Hl)].
Defined.

(** ** Restart *)

Lemma start_self (s : St) : self (fst (start s)) = self (fst s).
Proof.
  destruct (start_first_tick s) as (r & -> & Hr & _).
  destruct (gameLoop_frame r) as [E _]. congruence.
Qed.

(** [start] ends with the first tick. *)
Lemma start_rotation (s : St) : rotation (fst (start s)) == 4.
Proof.
  destruct (start_first_tick s) as (r & -> & _ & Hr & Hs & _ & _ & Ho).
  destruct (gameLoop_fields r) as (_ & _ & E).
  rewrite E, Ho, Hr, Hs. reflexivity.
Qed.

Lemma restartGame_fresh (w : World) :
  WorldInv w ->
  exists g,
    currentGame (restartGame w) = Some g
    /\ g = mkGame (nextGame w) 0 4 3 0 false 0 None [] None
    /\ orientationListeners (page (restartGame w)) = [].
Proof.
  intros H. pose proof (restartGame_page w H) as Hnil.
  unfold restartGame.
  set (b := match currentGame w with
            | Some g => snd (cleanup (g, page w))
            | None => page w
            end) in *.
  destruct (construct_fresh (nextGame w) b) as [Hg Hl].
  destruct (construct (nextGame w) b) as [g' b']. cbn [fst snd] in *.
  exists g'. cbn. repeat split; congruence.
Qed.

(** C8, as the code has it.  After [restartGame], in any reachable world and
    so after any number of restarts, the new game has 3 lives, 0 points,
    rotation 0 and speed 4, and no orientation listener is registered; the
    start gesture that follows registers exactly one, that of the new game,
    with lives, points and speed as before.  No reachable world has more than
    one listener. *)
Theorem restart_resets_and_start_subscribes_once :
  forall w : World,
    reachable w ->
    (length (orientationListeners (page w)) <= 1)%nat
    /\ exists g,
        currentGame (restartGame w) = Some g
        /\ lives g = 3%Z /\ points g = 0%Z /\ rotation g = 0 /\ speed g = 4
        /\ orientationListeners (page (restartGame w)) = []
        /\ forall p, mayStart p = true ->
             exists g',
               currentGame (startGame p (restartGame w)) = Some g'
               /\ self g' = self g
               /\ lives g' = 3%Z /\ points g' = 0%Z /\ speed g' = 4
               /\ rotation g' == 4
               /\ orientationListeners (page (startGame p (restartGame w)))
                  = [self g'].
Proof.
  intros w Hr. pose proof (reachable_inv w Hr) as Hinv. split.
  { unfold WorldInv in Hinv. destruct (currentGame w).
    - destruct Hinv as [_ _ _ _ _ _ [E | E]]; rewrite E; simpl; lia.
    - rewrite Hinv. simpl. lia. }
  destruct (restartGame_fresh w Hinv) as (g & Hg & Eg & Hnil).
  exists g. split; [exact Hg|].
  repeat (split; [subst g; reflexivity|]).
  split; [exact Hnil|].
  intros p Hp. unfold startGame. rewrite Hp, Hg.
  set (s := (g, set_messageShown false (page (restartGame w)))).
  destruct (start_inv g (set_messageShown false (page (restartGame w))))
    as [_ Hone].
  { left. exact Hnil. }
  fold s in Hone.
  pose proof (start_self s) as Hself.
  pose proof (start_rotation s) as Hrot.
  destruct (start_fresh s) as (Hl & Hpt & Hs & _).
  destruct (start s) as [g' b']. cbn [fst snd currentGame page] in *.
  exists g'. repeat split; try assumption.
  rewrite Hone, Hself. reflexivity.
Qed.

Lemma restart_resets_and_start_subscribes_once_witness :
  let w := run [Click NotRequired; PlayAgain; TouchStart Granted; PlayAgain]
               loaded in
  reachable w
  /\ orientationListeners (page (restartGame w)) = []
  /\ orientationListeners (page (startGame Granted (restartGame w))) = [3%nat].
Proof.
  intros w.
  assert (Hr : reachable w) by (apply reachable_run; constructor).
  destruct (restart_resets_and_start_subscribes_once w Hr)
    as (_ & g & Hg & _ & _ & _ & _ & Hnil & Hstart).
  split; [exact Hr|]. split; [exact Hnil|].
  destruct (Hstart Granted eq_refl) as (g' & _ & Hself & _ & _ & _ & _ & Hone).
  rewrite Hone, Hself.
  assert (E : Some g = Some (mkGame 3 0 4 3 0 false 0 None [] None)).
  { rewrite <- Hg. vm_compute. reflexivity. }
  injection E as ->. reflexivity.
Defined.

(** C8 as stated fails both ways it can be read: right after [restartGame]
    no listener is registered, and once the start gesture has registered one
    the first tick has already moved the rotation to 4. *)
Lemma restart_then_one_subscription_fails :
  let w := restartGame (step (Click NotRequired) loaded) in
  let claimed (w : World) :=
    exists g,
      currentGame w = Some g
      /\ lives g = 3%Z /\ points g = 0%Z
      /\ rotation g == 0 /\ speed g == 4
      /\ length (orientationListeners (page w)) = 1%nat in
  ~ claimed w /\ ~ claimed (startGame NotRequired w).
Proof.
  split.
  - intros (g & _ & _ & _ & _ & _ & H). vm_compute in H. discriminate.
  - intros (g & Hg & _ & _ & H & _). vm_compute in Hg.
    injection Hg as <-. vm_compute in H. discriminate.
Qed.

(** ** The life cycle *)

Ltac open_state g b :=
  destruct g as [gid grot gsp gl gp gov gtt glb gwin gfr];
  destruct b as [btr blt bpt bmh bms bls bfr bnf];
  cbn [self rotation speed lives points isGameOver lastTiltTime lastBeta
       recentBetas animationFrameId transform livesText pointsText
       messageHTML messageShown orientationListeners frameRequests
       nextFrame] in *.

Ltac run_methods :=
  unfold start, gameLoop, cleanup, endGame, addEventListener,
    removeEventListener, cancelAnimationFrame, requestAnimationFrame,
    set_orientationListeners;
  repeat (cbn -[Js.rem Z.sub Z.add Z.leb Z.rem Z.eqb];
          rewrite ?Nat.eqb_refl, ?Pos.eqb_refl).

Lemma start_playing (g : Game) (b : Browser) :
  orientationListeners b = [] \/ orientationListeners b = [self g] ->
  FrameInv (g, b) -> messageShown b = false ->
  (length (recentBetas g) <= 3)%nat ->
  let s := start (g, b) in
  Displayed (fst s) (snd s)
  /\ (length (recentBetas (fst s)) <= 3)%nat
  /\ Playing (fst s) (snd s).
Proof.
  intros Hls Hfr Hms Hwin.
  unfold FrameInv in Hfr. cbn [fst snd] in Hfr.
  open_state g b. subst bms.
  assert (E :
             start (mkGame gid grot gsp gl gp gov gtt glb gwin gfr,
                    mkBrowser btr blt bpt bmh false bls bfr bnf)
             = (mkGame gid (Js.rem (Js.add 0 4) 360) 4 3 0 false gtt glb gwin
                       (Some bnf),
                mkBrowser (Js.rem (Js.add 0 4) 360) 3 0 bmh false [gid]
                          [(bnf, gid)] (Pos.succ bnf))).
  { destruct Hfr as [-> | (id & Eg & ->)];
      destruct Hls as [-> | ->];
      destruct gfr; try discriminate; try (injection Eg as ->);
      run_methods; reflexivity. }
  rewrite E. cbn -[Js.rem].
  split; [repeat split|]. split; [exact Hwin|].
  unfold Playing. cbn -[Js.rem].
  repeat split; try lia; try reflexivity.
  exists bnf. split; reflexivity.
Qed.

Lemma level_up (p : Z) :
  (0 <= p)%Z -> Z.rem (p + 1) 5 = 0%Z -> ((p + 1) / 5 = p / 5 + 1)%Z.
Proof. intros. Z.to_euclidean_division_equations. lia. Qed.

Lemma level_same (p : Z) :
  (0 <= p)%Z -> Z.rem (p + 1) 5 <> 0%Z -> ((p + 1) / 5 = p / 5)%Z.
Proof. intros. Z.to_euclidean_division_equations. lia. Qed.

Lemma pushBeta_length (x : Q) (w : list Q) :
  (length w <= 3)%nat -> (length (pushBeta x w) <= 3)%nat.
Proof.
  intros H. rewrite pushBeta_lastn, lastn_length by exact H. lia.
Qed.

(** [checkHit] on a game that is being played. *)
Lemma checkHit_playing (g : Game) (b : Browser) :
  Displayed g b -> Playing g b ->
  let s := checkHit (g, b) in
  Displayed (fst s) (snd s)
  /\ (Playing (fst s) (snd s) \/ Finished (fst s) (snd s)).
Proof.
  intros (Dl & Dp & Dr) (Hov & Hls & (id & Hid & Hfr) & Hms & Hl & Hp & Hsp).
  open_state g b. subst. unfold checkHit. cbn [rotation].
  destruct (isInTargetZone grot).
  - cbn [points set_points].
    destruct (Z.eqb_spec (Z.rem (gp + 1) 5) 0) as [E | E].
    + cbn. split; [repeat split|]. left. unfold Playing. cbn.
      repeat split; try lia. { exists id. split; reflexivity. }
      rewrite (level_up gp Hp E).
      change (gp / 5 + 1)%Z with (Z.succ (gp / 5)).
      rewrite Z2Nat.inj_succ by (apply Z.div_pos; lia). reflexivity.
    + cbn. split; [repeat split|]. left. unfold Playing. cbn.
      repeat split; try lia. { exists id. split; reflexivity. }
      rewrite (level_same gp Hp E). reflexivity.
  - cbn [lives set_lives].
    destruct (Z.leb_spec (gl - 1) 0) as [E | E].
    + run_methods. split; [repeat split|]. right. unfold Finished.
      run_methods. repeat split; try lia; reflexivity.
    + cbn. split; [repeat split|]. left. unfold Playing. cbn.
      repeat split; try lia; try assumption. exists id. split; reflexivity.
Qed.

Lemma handleMotion_playing (beta : Js.Value) (now1 now2 : Z)
      (g : Game) (b : Browser) :
  Displayed g b -> (length (recentBetas g) <= 3)%nat -> Playing g b ->
  let s := handleMotion beta now1 now2 (g, b) in
  Displayed (fst s) (snd s)
  /\ (length (recentBetas (fst s)) <= 3)%nat
  /\ (Playing (fst s) (snd s) \/ Finished (fst s) (snd s)).
Proof.
  intros D Hw P s.
  assert (Hlen : (length (recentBetas (fst s)) <= 3)%nat).
  { unfold s. rewrite handleMotion_window. cbn [fst].
    destruct beta; auto using pushBeta_length. }
  split; [|split; [exact Hlen|]]; unfold s; clear s Hlen.
  - destruct beta as [| |x];
      try (rewrite handleMotion_absent by auto; exact D).
    rewrite handleMotion_number.
    set (g1 := set_recentBetas (pushBeta x (recentBetas g)) g).
    destruct (_ && _); [|exact D].
    destruct (checkHit_playing g1 b D P) as [D' _].
    destruct (checkHit (g1, b)) as [g2 b2]. exact D'.
  - destruct beta as [| |x];
      try (rewrite handleMotion_absent by auto; left; exact P).
    rewrite handleMotion_number.
    set (g1 := set_recentBetas (pushBeta x (recentBetas g)) g).
    destruct (_ && _); [|left; exact P].
    destruct (checkHit_playing g1 b D P) as [_ P'].
    destruct (checkHit (g1, b)) as [g2 b2]. exact P'.
Qed.

(** The frame callback of a game that is being played. *)
Lemma frame_playing (id : positive) (g : Game) (b : Browser) :
  Displayed g b -> Playing g b ->
  animationFrameId g = Some id ->
  let s := gameLoop (g, cancelAnimationFrame id b) in
  Displayed (fst s) (snd s) /\ Playing (fst s) (snd s)
  /\ recentBetas (fst s) = recentBetas g.
Proof.
  intros (Dl & Dp & Dr) (Hov & Hls & (id' & Hid & Hfr) & Hms & Hl & Hp & Hsp) E.
  open_state g b. subst. injection E as ->.
  run_methods. split; [repeat split|]. split; [|reflexivity].
  unfold Playing. cbn -[Js.rem].
  repeat split; try lia; try assumption. exists bnf. split; reflexivity.
Qed.

Lemma restartGame_waiting (w : World) :
  LifeCycle w -> LifeCycle (restartGame w)
  /\ clickArmed (restartGame w) = true /\ touchArmed (restartGame w) = true
  /\ exists g, currentGame (restartGame w) = Some g
               /\ Waiting g (page (restartGame w)).
Proof.
  unfold LifeCycle, restartGame.
  destruct (currentGame w) as [g|]; [|tauto].
  destruct (page w) as [btr blt bpt bmh bms bls bfr bnf].
  destruct g as [gid grot gsp gl gp gov gtt glb gwin gfr].
  unfold Displayed, Waiting, Playing, Finished.
  cbn [self rotation speed lives points isGameOver lastTiltTime lastBeta
       recentBetas animationFrameId transform livesText pointsText
       messageHTML messageShown orientationListeners frameRequests
       nextFrame].
  assert (Hfresh : forall (n : nat) (b : Browser) (ca ta : bool) (k : nat),
             orientationListeners b = [] -> frameRequests b = [] ->
             let v := let '(g, b) := construct n b in
                      mkWorld (Some g) b true true k in
             (match currentGame v with
              | Some g =>
                  Displayed g (page v)
                  /\ (length (recentBetas g) <= 3)%nat
                  /\ (Waiting g (page v) \/ Playing g (page v)
                      \/ Finished g (page v))
              | None => False
              end)
             /\ clickArmed v = true /\ touchArmed v = true
             /\ exists g, currentGame v = Some g /\ Waiting g (page v)).
  { intros n b ca ta k El Ef. destruct b as [tr lt pt mh ms ls fr nf].
    cbn in El, Ef. subst ls fr. cbn.
    split; [split; [repeat split | split; [lia | left; repeat split]]|].
    split; [reflexivity|]. split; [reflexivity|].
    eexists. split; [reflexivity | repeat split]. }
  intros (_ & _ & [W | [P | F]]).
  - destruct W as (_ & El & Ef & _).
    apply (Hfresh (nextGame w) _ true true (S (nextGame w)));
      unfold cleanup; destruct gfr; cbn; rewrite ?El, ?Ef; reflexivity.
  - destruct P as (_ & El & (id & Eid & Ef) & _). subst gfr.
    apply (Hfresh (nextGame w) _ true true (S (nextGame w)));
      unfold cleanup; cbn; rewrite ?El, ?Ef; cbn;
      rewrite ?Nat.eqb_refl, ?Pos.eqb_refl; reflexivity.
  - destruct F as (_ & _ & _ & _ & _ & El & Ef & _).
    apply (Hfresh (nextGame w) _ true true (S (nextGame w)));
      unfold cleanup; destruct gfr; cbn; rewrite ?El, ?Ef; reflexivity.
Qed.

Lemma phase_listeners (g : Game) (b : Browser) :
  Waiting g b \/ Playing g b \/ Finished g b ->
  (orientationListeners b = [] \/ orientationListeners b = [self g])
  /\ FrameInv (g, b).
Proof.
  unfold FrameInv. cbn [fst snd].
  intros [W | [P | F]].
  - destruct W as (_ & El & Ef & _). auto.
  - destruct P as (_ & El & Ef & _). auto.
  - destruct F as (_ & _ & _ & _ & _ & El & Ef & _). auto.
Qed.

Lemma startGame_lifecycle (p : Permission) (w : World) :
  LifeCycle w -> LifeCycle (startGame p w).
Proof.
  intros H. unfold startGame. destruct (mayStart p); [|exact H].
  unfold LifeCycle in *. destruct (currentGame w) as [g|] eqn:Eg; [|tauto].
  destruct H as (_ & Hw & Hph).
  destruct (phase_listeners g (page w) Hph) as [Hls Hfr].
  destruct (start_playing g (set_messageShown false (page w)))
    as (D & Hw' & P); auto.
  destruct (start _) as [g' b']. cbn [currentGame page]. auto.
Qed.

Lemma step_lifecycle (e : Event) (w : World) :
  LifeCycle w -> LifeCycle (step e w).
Proof.
  intros H. destruct e as [p | p | | beta now1 now2 | id]; cbn [step].
  - destruct (clickArmed w); [|exact H]. apply startGame_lifecycle. exact H.
  - destruct (touchArmed w); [|exact H]. apply startGame_lifecycle. exact H.
  - apply restartGame_waiting, H.
  - unfold LifeCycle in *. destruct (currentGame w) as [g|] eqn:Eg; [|tauto].
    destruct (isListening g (page w)) eqn:Hon; [|rewrite Eg; exact H].
    destruct H as (D & Hw & [W | [P | F]]).
    + destruct W as (_ & El & _). unfold isListening in Hon.
      rewrite El in Hon. discriminate.
    + destruct (handleMotion_playing beta now1 now2 g (page w) D Hw P)
        as (D' & Hw' & P').
      destruct (handleMotion _ _ _ _) as [g' b']. cbn [currentGame page].
      tauto.
    + destruct F as (_ & _ & _ & _ & _ & El & _). unfold isListening in Hon.
      rewrite El in Hon. discriminate.
  - unfold LifeCycle in *. destruct (currentGame w) as [g|] eqn:Eg; [|tauto].
    destruct H as (D & Hw & [W | [P | F]]).
    + pose proof W as (_ & _ & Ef & _). rewrite Ef. cbn. rewrite Eg.
      auto.
    + pose proof P as (_ & _ & (id0 & Eid & Ef) & _). rewrite Ef.
      cbn [find fst]. destruct (Pos.eqb_spec id0 id) as [<- | Hne].
      * rewrite Nat.eqb_refl.
        destruct (frame_playing id0 g (page w) D P Eid) as (D' & P' & Ew).
        destruct (gameLoop _) as [g' b']. cbn [currentGame page fst snd] in *.
        rewrite Ew. auto.
      * rewrite Eg. auto.
    + pose proof F as (_ & _ & _ & _ & _ & _ & Ef & _). rewrite Ef.
      cbn. rewrite Eg. auto.
Qed.

Lemma loaded_lifecycle : LifeCycle loaded.
Proof.
  cbn. split; [repeat split|]. split; [lia|]. left. repeat split.
Qed.

Lemma reachable_lifecycle (w : World) : reachable w -> LifeCycle w.
Proof.
  induction 1 as [|e w _ IH];
    [exact loaded_lifecycle | apply step_lifecycle, IH].
Qed.

(** ** Properties of the page beyond the claims *)

(** X1. In every reachable world the screen shows the state of the game: the
    lives text and the points text carry the current [lives] and [points],
    and the beam is drawn at the current [rotation]. *)
Theorem display_shows_game_state :
  forall (w : World) (g : Game),
    reachable w -> currentGame w = Some g ->
    livesText (page w) = lives g
    /\ pointsText (page w) = points g
    /\ transform (page w) = rotation g.
Proof.
  intros w g Hr Hg. pose proof (reachable_lifecycle w Hr) as H.
  unfold LifeCycle in H. rewrite Hg in H. apply H.
Qed.

Lemma display_shows_game_state_witness :
  let w := run [Click NotRequired; AnimationFrame 1; AnimationFrame 2;
                DeviceOrientation (Js.Num 10) 1000 1000;
                DeviceOrientation (Js.Num 30) 1300 1300] loaded in
  reachable w
  /\ match currentGame w with
     | Some g =>
         points g = 1%Z /\ pointsText (page w) = 1%Z
         /\ livesText (page w) = lives g
         /\ transform (page w) = rotation g
     | None => False
     end.
Proof.
  intros w.
  assert (Hr : reachable w) by (apply reachable_run; constructor).
  split; [exact Hr|].
  destruct (currentGame w) as [g|] eqn:E; [|vm_compute in E; discriminate].
  destruct (display_shows_game_state w g Hr E) as (Hl & Hp & Ht).
  assert (E1 : points g = 1%Z).
  { vm_compute in E. injection E as <-. reflexivity. }
  split; [exact E1|]. split; [rewrite Hp; exact E1|].
  split; assumption.
Defined.

(** X2. In every reachable world at most one animation frame is pending; a
    pending frame belongs to the current game, is the one kept in
    [animationFrameId], and the game is not over.  While the game is
    listening there is exactly one. *)
Theorem at_most_one_frame_pending :
  forall w : World,
    reachable w ->
    (length (frameRequests (page w)) <= 1)%nat
    /\ (forall id owner,
           In (id, owner) (frameRequests (page w)) ->
           exists g, currentGame w = Some g /\ owner = self g
                     /\ animationFrameId g = Some id
                     /\ isGameOver g = false)
    /\ (forall g, currentGame w = Some g ->
           isListening g (page w) = true ->
           length (frameRequests (page w)) = 1%nat).
Proof.
  intros w Hr. pose proof (reachable_lifecycle w Hr) as H.
  unfold LifeCycle in H. destruct (currentGame w) as [g|]; [|tauto].
  destruct H as (_ & _ & [W | [P | F]]).
  - destruct W as (_ & El & Ef & _). rewrite Ef.
    split; [simpl; lia|]. split; [intros ? ? []|].
    intros g' Eg Hon. injection Eg as <-. unfold isListening in Hon.
    rewrite El in Hon. discriminate.
  - destruct P as (Ho & El & (id & Eid & Ef) & _). rewrite Ef.
    split; [simpl; lia|]. split; [|intros; reflexivity].
    intros i o [E | []]. injection E as <- <-. exists g. auto.
  - destruct F as (_ & _ & _ & _ & _ & El & Ef & _). rewrite Ef.
    split; [simpl; lia|]. split; [intros ? ? []|].
    intros g' Eg Hon. injection Eg as <-. unfold isListening in Hon.
    rewrite El in Hon. discriminate.
Qed.

Lemma at_most_one_frame_pending_witness :
  let w := run [Click NotRequired; TouchStart Granted; AnimationFrame 2;
                AnimationFrame 1; AnimationFrame 3] loaded in
  reachable w
  /\ (length (frameRequests (page w)) <= 1)%nat
  /\ frameRequests (page w) = [(4%positive, 0%nat)].
Proof.
  intros w.
  assert (Hr : reachable w) by (apply reachable_run; constructor).
  split; [exact Hr|].
  destruct (at_most_one_frame_pending w Hr) as (Hlen & _ & _).
  split; [exact Hlen|]. vm_compute. reflexivity.
Defined.

(** X3. The message panel is hidden exactly while the game listens to the
    sensor.  When it is shown for a game that is over it carries the result
    for the score; when it is shown for a game that is not over, that game is
    untouched (3 lives, 0 points) and the panel carries the welcome text. *)
Theorem message_shown_unless_playing :
  forall (w : World) (g : Game),
    reachable w -> currentGame w = Some g ->
    (isListening g (page w) = true <-> messageShown (page w) = false)
    /\ (isGameOver g = true ->
        messageHTML (page w) = resultMessage (points g))
    /\ (isGameOver g = false -> messageShown (page w) = true ->
        messageHTML (page w) = Welcome
        /\ lives g = 3%Z /\ points g = 0%Z).
Proof.
  intros w g Hr Hg. pose proof (reachable_lifecycle w Hr) as H.
  unfold LifeCycle in H. rewrite Hg in H.
  destruct H as (_ & _ & [W | [P | F]]); unfold isListening.
  - destruct W as (Eg & El & _ & Es & Em). rewrite El, Es, Em, Eg. cbn.
    repeat split; auto; discriminate.
  - destruct P as (Ho & El & _ & Es & _). rewrite El, Es, Ho. cbn.
    rewrite Nat.eqb_refl. repeat split; auto; discriminate.
  - destruct F as (Ho & _ & _ & _ & _ & El & _ & Es & Em).
    rewrite El, Es, Em, Ho. cbn. repeat split; auto; discriminate.
Qed.

Lemma message_shown_unless_playing_witness :
  let w := run [Click NotRequired; AnimationFrame 1; AnimationFrame 2;
                AnimationFrame 3; AnimationFrame 4; AnimationFrame 5;
                AnimationFrame 6;
                DeviceOrientation (Js.Num 10) 1000 1000;
                DeviceOrientation (Js.Num 30) 1300 1300;
                DeviceOrientation (Js.Num 50) 1600 1600;
                DeviceOrientation (Js.Num 70) 1900 1900] loaded in
  reachable w
  /\ match currentGame w with
     | Some g =>
         isGameOver g = true /\ messageHTML (page w) = StillThirsty
         /\ messageShown (page w) = true
     | None => False
     end.
Proof.
  intros w.
  assert (Hr : reachable w) by (apply reachable_run; constructor).
  split; [exact Hr|].
  destruct (currentGame w) as [g|] eqn:E; [|vm_compute in E; discriminate].
  destruct (message_shown_unless_playing w g Hr E) as (Hm & Hres & _).
  assert (Eo : isGameOver g = true /\ points g = 0%Z).
  { vm_compute in E. injection E as <-. split; reflexivity. }
  destruct Eo as [Eo Ep].
  split; [exact Eo|]. split; [rewrite (Hres Eo), Ep; reflexivity|].
  vm_compute. reflexivity.
Defined.

(** X4. In every reachable world the lives stay between 0 and 3, the points
    are not negative, and the game is over exactly when no life is left. *)
Theorem game_over_iff_no_lives :
  forall (w : World) (g : Game),
    reachable w -> currentGame w = Some g ->
    (0 <= lives g <= 3)%Z /\ (0 <= points g)%Z
    /\ (isGameOver g = true <-> lives g = 0%Z).
Proof.
  intros w g Hr Hg. pose proof (reachable_lifecycle w Hr) as H.
  unfold LifeCycle in H. rewrite Hg in H.
  destruct H as (_ & _ & [W | [P | F]]).
  - destruct W as (Eg & _). rewrite Eg. cbn.
    repeat split; try lia; discriminate.
  - destruct P as (Ho & _ & _ & _ & Hl & Hp & _). rewrite Ho.
    repeat split; try lia; try discriminate.
  - destruct F as (Ho & Hl & Hp & _). rewrite Ho, Hl.
    repeat split; try lia; reflexivity.
Qed.

Lemma game_over_iff_no_lives_witness :
  let w := run [Click NotRequired; AnimationFrame 1; AnimationFrame 2;
                AnimationFrame 3; AnimationFrame 4; AnimationFrame 5;
                AnimationFrame 6;
                DeviceOrientation (Js.Num 10) 1000 1000;
                DeviceOrientation (Js.Num 30) 1300 1300;
                DeviceOrientation (Js.Num 50) 1600 1600] loaded in
  reachable w
  /\ match currentGame w with
     | Some g => lives g = 1%Z /\ isGameOver g = false
     | None => False
     end.
Proof.
  intros w.
  assert (Hr : reachable w) by (apply reachable_run; constructor).
  split; [exact Hr|].
  destruct (currentGame w) as [g|] eqn:E; [|vm_compute in E; discriminate].
  destruct (game_over_iff_no_lives w g Hr E) as (_ & _ & Hov).
  assert (El : lives g = 1%Z).
  { vm_compute in E. injection E as <-. reflexivity. }
  split; [exact El|].
  destruct (isGameOver g); [|reflexivity].
  destruct Hov as [Hov _]. specialize (Hov eq_refl). lia.
Defined.

(** X5. While the game is not over the speed is a function of the score: it
    is what [this.speed += 0.7] makes of the base speed 4 when it has run
    once for every 5 points scored, each sum rounded to a double. *)
Theorem speed_follows_points :
  forall (w : World) (g : Game),
    reachable w -> currentGame w = Some g -> isGameOver g = false ->
    speed g = levelSpeed (Z.to_nat (points g / 5)).
Proof.
  intros w g Hr Hg Ho. pose proof (reachable_lifecycle w Hr) as H.
  unfold LifeCycle in H. rewrite Hg in H.
  destruct H as (_ & _ & [W | [P | F]]).
  - destruct W as (Eg & _). rewrite Eg. reflexivity.
  - apply P.
  - destruct F as (Ho' & _). congruence.
Qed.

Lemma speed_follows_points_witness :
  let w := run [Click NotRequired;
                DeviceOrientation (Js.Num 10) 1000 1000;
                DeviceOrientation (Js.Num 30) 1300 1300;
                DeviceOrientation (Js.Num 50) 1600 1600;
                DeviceOrientation (Js.Num 70) 1900 1900;
                DeviceOrientation (Js.Num 90) 2200 2200;
                DeviceOrientation (Js.Num 110) 2500 2500;
                DeviceOrientation (Js.Num 130) 2800 2800;
                DeviceOrientation (Js.Num 150) 3100 3100;
                DeviceOrientation (Js.Num 170) 3400 3400;
                DeviceOrientation (Js.Num 190) 3700 3700;
                DeviceOrientation (Js.Num 210) 4000 4000;
                DeviceOrientation (Js.Num 230) 4300 4300;
                DeviceOrientation (Js.Num 250) 4600 4600;
                DeviceOrientation (Js.Num 270) 4900 4900;
                DeviceOrientation (Js.Num 290) 5200 5200;
                DeviceOrientation (Js.Num 310) 5500 5500] loaded in
  reachable w
  /\ match currentGame w with
     | Some g =>
         points g = 15%Z /\ isGameOver g = false
         /\ speed g = Js.round 6.1000000000000005
         /\ ~ speed g == Js.round 6.1
     | None => False
     end.
Proof.
  intros w.
  assert (Hr : reachable w) by (apply reachable_run; constructor).
  split; [exact Hr|].
  destruct (currentGame w) as [g|] eqn:E; [|vm_compute in E; discriminate].
  assert (Ep : points g = 15%Z /\ isGameOver g = false).
  { vm_compute in E. injection E as <-. split; reflexivity. }
  destruct Ep as [Ep Eo].
  split; [exact Ep|]. split; [exact Eo|].
  rewrite (speed_follows_points w g Hr E Eo), Ep.
  split; [vm_compute; reflexivity | vm_compute; discriminate].
Defined.

(** X6. Once the game is over nothing drives it any more: no orientation
    listener and no frame is left, the rotation is back at 0, and sensor
    samples and frame callbacks leave the world as it is. *)
Theorem game_over_is_quiescent :
  forall (w : World) (g : Game),
    reachable w -> currentGame w = Some g -> isGameOver g = true ->
    orientationListeners (page w) = []
    /\ frameRequests (page w) = []
    /\ rotation g = 0 /\ transform (page w) = 0
    /\ (forall beta now1 now2, step (DeviceOrientation beta now1 now2) w = w)
    /\ (forall id, step (AnimationFrame id) w = w).
Proof.
  intros w g Hr Hg Ho. pose proof (reachable_lifecycle w Hr) as H.
  unfold LifeCycle in H. rewrite Hg in H.
  destruct H as ((_ & _ & Dt) & _ & [W | [P | F]]).
  - destruct W as (Eg & _). rewrite Eg in Ho. discriminate.
  - destruct P as (Ho' & _). congruence.
  - destruct F as (_ & _ & _ & Er & _ & El & Ef & _).
    split; [exact El|]. split; [exact Ef|]. split; [exact Er|].
    split; [congruence|]. split.
    + intros beta now1 now2. cbn [step]. rewrite Hg.
      unfold isListening. rewrite El. reflexivity.
    + intros id. cbn [step]. rewrite Ef. reflexivity.
Qed.

Lemma game_over_is_quiescent_witness :
  let w := run [Click NotRequired; AnimationFrame 1; AnimationFrame 2;
                AnimationFrame 3; AnimationFrame 4; AnimationFrame 5;
                AnimationFrame 6;
                DeviceOrientation (Js.Num 10) 1000 1000;
                DeviceOrientation (Js.Num 30) 1300 1300;
                DeviceOrientation (Js.Num 50) 1600 1600;
                DeviceOrientation (Js.Num 70) 1900 1900] loaded in
  reachable w
  /\ match currentGame w with
     | Some g => isGameOver g = true
     | None => False
     end
  /\ step (DeviceOrientation (Js.Num 90) 2200 2200) w = w
  /\ step (AnimationFrame 7) w = w.
Proof.
  intros w.
  assert (Hr : reachable w) by (apply reachable_run; constructor).
  split; [exact Hr|].
  destruct (currentGame w) as [g|] eqn:E; [|vm_compute in E; discriminate].
  assert (Eo : isGameOver g = true).
  { vm_compute in E. injection E as <-. reflexivity. }
  destruct (game_over_is_quiescent w g Hr E Eo) as (_ & _ & _ & _ & Hs & Hf).
  split; [exact Eo|]. split; [apply Hs | apply Hf].
Defined.

(** X7. A start gesture is consumed even when the permission is not granted:
    the world is the same but for the listener that fired.  Once neither
    gesture is armed, and nothing is subscribed or scheduled, no click,
    touch, sensor sample or frame changes the world; only Play Again does. *)
Theorem unarmed_page_stays_put :
  (forall (p : Permission) (w : World),
      mayStart p = false ->
      step (Click p) w
      = mkWorld (currentGame w) (page w) false (touchArmed w) (nextGame w)
      /\ step (TouchStart p) w
         = mkWorld (currentGame w) (page w) (clickArmed w) false (nextGame w))
  /\ (forall (w : World) (es : list Event),
        clickArmed w = false -> touchArmed w = false ->
        orientationListeners (page w) = [] -> frameRequests (page w) = [] ->
        forallb (fun e => negb (isPlayAgain e)) es = true ->
        run es w = w).
Proof.
  split.
  - intros p w Hp. cbn [step]. unfold startGame. rewrite Hp.
    destruct w as [cg pg ca ta ng]. cbn. destruct ca, ta; auto.
  - intros w es Hc Ht Hl Hf. induction es as [|e es IH]; [reflexivity|].
    cbn [forallb]. rewrite andb_true_iff. intros [He Hes].
    change (run (e :: es) w) with (run es (step e w)).
    assert (E : step e w = w).
    { destruct e as [p | p | | beta now1 now2 | id]; cbn [step].
      - rewrite Hc. reflexivity.
      - rewrite Ht. reflexivity.
      - discriminate He.
      - destruct (currentGame w); [|reflexivity].
        unfold isListening. rewrite Hl. reflexivity.
      - rewrite Hf. reflexivity. }
    rewrite E. apply IH, Hes.
Qed.

Lemma unarmed_page_stays_put_witness :
  let w := run [TouchStart Refused; Click Failed] loaded in
  mayStart Refused = false
  /\ clickArmed w = false /\ touchArmed w = false
  /\ currentGame w = currentGame loaded /\ page w = page loaded
  /\ run [Click Granted; TouchStart NotRequired;
          DeviceOrientation (Js.Num 40) 5000 5000; AnimationFrame 1] w = w.
Proof.
  intros w. split; [reflexivity|].
  split; [reflexivity|]. split; [reflexivity|].
  split; [reflexivity|]. split; [reflexivity|].
  apply (proj2 unarmed_page_stays_put); reflexivity.
Defined.

Lemma start_keeps_window (s : St) :
  recentBetas (fst (start s)) = recentBetas (fst s)
  /\ lastTiltTime (fst (start s)) = lastTiltTime (fst s).
Proof.
  destruct s as [g b]. unfold start.
  destruct (animationFrameId g);
    rewrite gameLoop_recentBetas;
    match goal with
    | |- context [gameLoop ?r] =>
        destruct (gameLoop_score r) as (_ & _ & ->)
    end; split; reflexivity.
Qed.

(** X8. [start] gives the same running game from wherever it is called, in
    the middle of a game included: 3 lives, 0 points, speed 4, the rotation
    after one tick, one listener, one pending frame and no message.  It
    keeps the tilt window and the time of the last gesture. *)
Theorem start_resets_from_anywhere :
  forall (w : World) (g : Game) (p : Permission),
    reachable w -> currentGame w = Some g -> mayStart p = true ->
    exists g',
      currentGame (startGame p w) = Some g'
      /\ self g' = self g
      /\ lives g' = 3%Z /\ points g' = 0%Z /\ speed g' = 4
      /\ rotation g' == 4 /\ isGameOver g' = false
      /\ recentBetas g' = recentBetas g
      /\ lastTiltTime g' = lastTiltTime g
      /\ orientationListeners (page (startGame p w)) = [self g]
      /\ length (frameRequests (page (startGame p w))) = 1%nat
      /\ messageShown (page (startGame p w)) = false.
Proof.
  intros w g p Hr Hg Hp. pose proof (reachable_lifecycle w Hr) as H.
  unfold LifeCycle in H. rewrite Hg in H. destruct H as (_ & Hw & Hph).
  destruct (phase_listeners g (page w) Hph) as [Hls Hfr].
  unfold startGame. rewrite Hp, Hg.
  set (s := (g, set_messageShown false (page w))).
  destruct (start_playing g (set_messageShown false (page w)))
    as (_ & _ & P); auto.
  fold s in P.
  pose proof (start_self s) as Hself.
  pose proof (start_rotation s) as Hrot.
  destruct (start_fresh s) as (Hl & Hpt & Hs & Ho).
  destruct (start_keeps_window s) as [Hwin Htt].
  destruct (start s) as [g' b']. cbn [fst snd currentGame page] in *.
  destruct P as (_ & El & (id & _ & Ef) & Em & _).
  exists g'. rewrite El, Ef, Hself. repeat split; auto.
Qed.

Lemma start_resets_from_anywhere_witness :
  let w := run [Click NotRequired; AnimationFrame 1;
                DeviceOrientation (Js.Num 10) 1000 1000;
                DeviceOrientation (Js.Num 30) 1300 1300] loaded in
  reachable w
  /\ match currentGame w, currentGame (startGame Granted w) with
     | Some g, Some g' =>
         points g = 1%Z /\ points g' = 0%Z
         /\ recentBetas g' = [10; 30] /\ lastTiltTime g' = 1300%Z
     | _, _ => False
     end.
Proof.
  intros w.
  assert (Hr : reachable w) by (apply reachable_run; constructor).
  split; [exact Hr|].
  destruct (currentGame w) as [g|] eqn:E; [|vm_compute in E; discriminate].
  destruct (start_resets_from_anywhere w g Granted Hr E eq_refl)
    as (g' & -> & _ & _ & Hp & _ & _ & _ & Hwin & Htt & _).
  rewrite Hwin, Htt. vm_compute in E. injection E as <-.
  repeat split; assumption.
Defined.

(** X9. In a reachable world whose game listens, a sample whose movement,
    as [handleMotion] computes it, is more than 8 degrees, more than 200 ms
    after the last gesture, is scored on the normalised rotation, as
    [checkHit] computes it: at 335 degrees or more, or at 25 or less, it
    adds a point; anywhere else it takes a life, and the last life ends the
    game.  Either way the gesture time becomes the second clock reading.
    A rotation that is itself at 335 or more, or at 25 or less, is never
    a miss. *)
Theorem gesture_is_scored_on_rotation :
  forall (w : World) (g : Game) (x : Q) (now1 now2 : Z),
    reachable w -> currentGame w = Some g ->
    isListening g (page w) = true ->
    8 < movement (pushBeta x (recentBetas g)) ->
    (200 < now1 - lastTiltTime g)%Z ->
    exists g',
      currentGame (step (DeviceOrientation (Js.Num x) now1 now2) w) = Some g'
      /\ lastTiltTime g' = now2
      /\ (((335 <= normalizedRotation (rotation g)
            \/ normalizedRotation (rotation g) <= 25)
           /\ points g' = (points g + 1)%Z /\ lives g' = lives g
           /\ isGameOver g' = false)
          \/ ((25 < normalizedRotation (rotation g)
               /\ normalizedRotation (rotation g) < 335)
              /\ (25 < rotation g /\ rotation g < 335)
              /\ lives g' = (lives g - 1)%Z /\ points g' = points g
              /\ (isGameOver g' = true <-> lives g = 1%Z))).
Proof.
  intros w g x now1 now2 Hr Hg Hon Hm Ht.
  pose proof (reachable_inv w Hr) as Hinv.
  pose proof (reachable_lifecycle w Hr) as Hlc.
  unfold WorldInv in Hinv. unfold LifeCycle in Hlc. rewrite Hg in Hinv, Hlc.
  destruct Hinv as [Hlo Hhi _ _ _ Hlist _].
  destruct (Hlist Hon) as [Hrun Hpos].
  destruct Hlc as (D & Hwin & Hph).
  assert (P : Playing g (page w)).
  { destruct Hph as [W | [P | F]]; [|exact P|].
    - destruct W as (_ & El & _). unfold isListening in Hon.
      rewrite El in Hon. discriminate.
    - destruct F as (Ho & _). congruence. }
  cbn [step]. rewrite Hg, Hon. rewrite handleMotion_number.
  apply Qltb_lt in Hm. apply Z.ltb_lt in Ht. rewrite Hm, Ht. cbn [andb].
  set (g1 := set_recentBetas (pushBeta x (recentBetas g)) g).
  pose proof (isInTargetZone_spec (rotation g)) as Hzone.
  pose proof (isInTargetZone_raw (rotation g) Hlo Hhi) as Hraw.
  pose proof (checkHit_fields (g1, page w)) as F. cbv zeta in F.
  pose proof (checkHit_in_zone (g1, page w)) as Hhit.
  pose proof (checkHit_off_zone (g1, page w)) as Hmiss.
  pose proof (checkHit_playing g1 (page w) D P) as (_ & Hnext).
  unfold wasHit, wasMiss in Hhit, Hmiss.
  destruct (checkHit (g1, page w)) as [g2 b2].
  cbn [fst snd currentGame rotation points lives isGameOver set_recentBetas
       g1] in *.
  exists (set_lastTiltTime now2 g2). split; [reflexivity|].
  split; [reflexivity|]. cbn [points lives isGameOver set_lastTiltTime].
  destruct (isInTargetZone (rotation g)).
  - left. destruct (Hhit eq_refl) as [Ep El].
    destruct F as (_ & Fo & _).
    split; [apply Hzone; reflexivity|]. repeat split; congruence.
  - right. destruct (Hmiss eq_refl) as [El Ep].
    split.
    { destruct (Qlt_le_dec 25 (normalizedRotation (rotation g))) as [H1 | H1];
        destruct (Qlt_le_dec (normalizedRotation (rotation g)) 335)
          as [H2 | H2]; auto;
        exfalso; assert (Hc : false = true) by (apply Hzone; auto);
        discriminate. }
    split.
    { destruct (Qlt_le_dec 25 (rotation g)) as [H1 | H1];
        destruct (Qlt_le_dec (rotation g) 335) as [H2 | H2]; auto;
        exfalso; assert (Hc : false = true) by (apply Hraw; auto);
        discriminate. }
    split; [exact El|]. split; [exact Ep|].
    destruct Hnext as [P' | F'].
    + destruct P' as (Ho' & _ & _ & _ & Hl' & _).
      split; [congruence | lia].
    + destruct F' as (Ho' & Hl' & _). split; [lia | auto].
Qed.

Lemma gesture_is_scored_on_rotation_witness :
  let w := run [Click NotRequired; AnimationFrame 1; AnimationFrame 2;
                AnimationFrame 3; AnimationFrame 4; AnimationFrame 5;
                AnimationFrame 6;
                DeviceOrientation (Js.Num 10) 1000 1000] loaded in
  reachable w
  /\ match currentGame w,
           currentGame (step (DeviceOrientation (Js.Num 30) 1300 1301) w) with
     | Some g, Some g' =>
         rotation g == 28 /\ lives g' = 2%Z /\ lastTiltTime g' = 1301%Z
     | _, _ => False
     end.
Proof.
  intros w.
  assert (Hr : reachable w) by (apply reachable_run; constructor).
  split; [exact Hr|].
  destruct (currentGame w) as [g|] eqn:E; [|vm_compute in E; discriminate].
  assert (Eg : g = mkGame 0 28 4 3 0 false 0 None [10] (Some 7%positive)).
  { vm_compute in E. injection E as <-. reflexivity. }
  destruct (gesture_is_scored_on_rotation w g 30 1300 1301 Hr E)
    as (g' & -> & Ht & [(Hz & _) | (_ & _ & Hl & _)]).
  - rewrite Eg. vm_compute. reflexivity.
  - rewrite Eg. reflexivity.
  - rewrite Eg. reflexivity.
  - rewrite Eg in Hz. cbn in Hz. exfalso. destruct Hz as [Hz | Hz];
      vm_compute in Hz; apply Hz; reflexivity.
  - rewrite Eg in *. split; [reflexivity|]. split; [exact Hl | exact Ht].
Defined.

(** X10. [cleanup] is idempotent: a second call changes nothing. *)
Theorem cleanup_idempotent :
  forall s : St, cleanup (cleanup s) = cleanup s.
Proof.
  intros [g b]. unfold cleanup, removeEventListener, cancelAnimationFrame,
    set_orientationListeners.
  assert (Hf : forall (h : nat) (l : list nat),
             filter (fun k => negb (Nat.eqb k h))
                    (filter (fun k => negb (Nat.eqb k h)) l)
             = filter (fun k => negb (Nat.eqb k h)) l).
  { intros h l. induction l as [|a l IH]; [reflexivity|].
    cbn. destruct (negb (Nat.eqb a h)) eqn:E; cbn; rewrite ?E, IH;
      reflexivity. }
  destruct g as [gid grot gsp gl gp gov gtt glb gwin [id|]]; cbn;
    rewrite Hf; reflexivity.
Qed.

(** ** Gestures beyond the claims *)

Lemma gentle_app_l (l1 l2 : list Q) : gentle (l1 ++ l2) -> gentle l1.
Proof.
  induction l1 as [|a [|b l1] IH]; cbn; auto.
  intros [H1 H2]. split; [exact H1 | apply IH, H2].
Qed.

Lemma gentle_skipn (k : nat) (l : list Q) : gentle l -> gentle (skipn k l).
Proof.
  revert l. induction k as [|k IH]; intros l H; [exact H|].
  destruct l as [|a [|b l]]; cbn [skipn]; auto.
  apply IH. apply H.
Qed.

Lemma gentle_movement (l : list Q) :
  gentle l -> (length l <= 3)%nat -> movement l <= 8.
Proof.
  unfold movement.
  destruct l as [|a [|b [|c [|d l]]]]; cbn; intros H Hl;
    try lra; try lia;
    (apply (sub_upper _ _ 8); [lia | change (inject_Z 8) with 8; lra]).
Qed.

Lemma call_gentle (c : Callback) (s : St) :
  (length (recentBetas (fst s)) <= 3)%nat ->
  gentle (recentBetas (fst s) ++ samples [c]) ->
  points (fst (call c s)) = points (fst s)
  /\ lives (fst (call c s)) = lives (fst s).
Proof.
  intros Hl Hg. destruct c as [|beta now1 now2]; cbn [call].
  - destruct (gameLoop_score s) as (Hp & Hv & _). auto.
  - destruct s as [g b].
    destruct beta as [| |x]; try (rewrite handleMotion_absent by auto; auto).
    cbn [fst samples] in *.
    assert (Hm : movement (pushBeta x (recentBetas g)) <= 8).
    { rewrite pushBeta_lastn by exact Hl. apply gentle_movement.
      - apply gentle_skipn, Hg.
      - rewrite lastn_length. lia. }
    rewrite handleMotion_number.
    destruct (Qltb 8 _) eqn:E; [apply Qltb_lt in E; lra|].
    cbn. auto.
Qed.

(** X11. A slow tilt is never a gesture.  If the window holds at most 3
    samples and every sample, old or new, is at most 4 degrees above the one
    before it, then no callback changes the points or the lives, whatever
    the clock says. *)
Theorem slow_tilt_is_never_scored :
  forall (cs : list Callback) (s : St),
    (length (recentBetas (fst s)) <= 3)%nat ->
    gentle (recentBetas (fst s) ++ samples cs) ->
    points (fst (calls cs s)) = points (fst s)
    /\ lives (fst (calls cs s)) = lives (fst s).
Proof.
  induction cs as [|c cs IH]; intros s Hl Hg; [auto|].
  rewrite calls_cons. rewrite samples_cons, app_assoc in Hg.
  destruct (call_gentle c s Hl (gentle_app_l _ _ Hg)) as [Hp Hv].
  pose proof (call_window c s Hl) as Hw.
  destruct (IH (call c s)) as [Hp' Hv'].
  - rewrite Hw, lastn_length. lia.
  - rewrite Hw. unfold lastn.
    set (k := (length (recentBetas (fst s) ++ samples [c]) - 3)%nat).
    replace (skipn k (recentBetas (fst s) ++ samples [c]) ++ samples cs)
      with (skipn k ((recentBetas (fst s) ++ samples [c]) ++ samples cs)).
    + apply gentle_skipn, Hg.
    + rewrite skipn_app.
      replace (k - length (recentBetas (fst s) ++ samples [c]))%nat
        with 0%nat by (unfold k; lia).
      reflexivity.
  - split; congruence.
Qed.

Lemma slow_tilt_is_never_scored_witness :
  let s := start (construct 0 blankPage) in
  let cs := [Tilt (Js.Num 0) 1000 1000; Tilt (Js.Num 4) 2000 2000; Tick;
             Tilt (Js.Num 8) 3000 3000; Tilt (Js.Num 12) 4000 4000;
             Tilt (Js.Num 16) 5000 5000; Tilt (Js.Num 2) 6000 6000] in
  (length (recentBetas (fst s)) <= 3)%nat
  /\ gentle (recentBetas (fst s) ++ samples cs)
  /\ points (fst (calls cs s)) = 0%Z /\ lives (fst (calls cs s)) = 3%Z.
Proof.
  intros s cs.
  assert (Hl : (length (recentBetas (fst s)) <= 3)%nat) by (cbn; lia).
  assert (Hg : gentle (recentBetas (fst s) ++ samples cs)).
  { cbn. repeat split; vm_compute; discriminate. }
  destruct (slow_tilt_is_never_scored cs s Hl Hg) as [Hp Hv].
  split; [exact Hl|]. split; [exact Hg|].
  rewrite Hp, Hv. split; reflexivity.
Defined.

Lemma handleMotion_score_step (beta : Js.Value) (now1 now2 : Z) (s : St) :
  let s' := handleMotion beta now1 now2 s in
  (points (fst s') = points (fst s) /\ lives (fst s') = lives (fst s))
  \/ wasHit s s' \/ wasMiss s s'.
Proof.
  destruct s as [g b]. cbv zeta.
  destruct beta as [| |x]; try (rewrite handleMotion_absent by auto; auto).
  rewrite handleMotion_number.
  set (g1 := set_recentBetas (pushBeta x (recentBetas g)) g).
  destruct (_ && _); [|left; split; reflexivity].
  pose proof (checkHit_in_zone (g1, b)) as Hhit.
  pose proof (checkHit_off_zone (g1, b)) as Hmiss.
  unfold wasHit, wasMiss in *.
  destruct (checkHit (g1, b)) as [g2 b2].
  cbn [fst snd points lives set_lastTiltTime set_recentBetas g1 rotation] in *.
  destruct (isInTargetZone (rotation g)); auto.
Qed.

(** X12. One sample moves the score by at most one step: [handleMotion]
    leaves points and lives alone, or adds exactly one point, or takes
    exactly one life, never both.  So over any callbacks the points never go
    down and the lives never go up. *)
Theorem score_moves_one_step :
  (forall (beta : Js.Value) (now1 now2 : Z) (s : St),
      let s' := handleMotion beta now1 now2 s in
      (points (fst s') = points (fst s) /\ lives (fst s') = lives (fst s))
      \/ wasHit s s' \/ wasMiss s s')
  /\ (forall (cs : list Callback) (s : St),
        (points (fst s) <= points (fst (calls cs s)))%Z
        /\ (lives (fst (calls cs s)) <= lives (fst s))%Z).
Proof.
  split; [exact handleMotion_score_step|].
  induction cs as [|c cs IH]; intros s; [cbn; lia|].
  rewrite calls_cons. destruct (IH (call c s)) as [Hp Hl].
  assert (Hc : (points (fst s) <= points (fst (call c s)))%Z
               /\ (lives (fst (call c s)) <= lives (fst s))%Z).
  { destruct c as [|beta now1 now2]; cbn [call].
    - destruct (gameLoop_score s) as (Ep & El & _). lia.
    - destruct (handleMotion_score_step beta now1 now2 s)
        as [[Ep El] | [[Ep El] | [El Ep]]]; lia. }
  lia.
Qed.

(** ** Normalising any rotation *)

(** X13. [((r % 360) + 360) % 360], computed in doubles, brings every
    rotation, negative ones included, into [0, 360), and changes no whole
    number of degrees that is already there.  The sum it takes is rounded,
    so it does change some rotations of [0, 360): the double just below 335
    becomes 335, and the double just below 360 becomes 0; but none leaves
    the target zone. *)
Theorem normalizedRotation_in_range :
  (forall r : Q, 0 <= normalizedRotation r /\ normalizedRotation r < 360)
  /\ (forall (r : Q) (n : Z),
        r == inject_Z n -> (0 <= n < 360)%Z -> normalizedRotation r == r)
  /\ (forall r : Q,
        0 <= r -> r < 360 ->
        (r <= 25 -> normalizedRotation r <= 25)
        /\ (335 <= r ->
            335 <= normalizedRotation r \/ normalizedRotation r == 0))
  /\ (Js.isDouble (335 - Js.pow2 (- 44))
      /\ normalizedRotation (335 - Js.pow2 (- 44)) == 335)
  /\ (Js.isDouble (360 - Js.pow2 (- 44))
      /\ normalizedRotation (360 - Js.pow2 (- 44)) == 0).
Proof.
  split; [exact normalizedRotation_bounds|].
  split; [exact normalizedRotation_whole|].
  split; [exact normalizedRotation_zone|].
  split; split; vm_compute; reflexivity.
Qed.

Lemma normalizedRotation_in_range_witness :
  normalizedRotation (- (30)) == 330 /\ normalizedRotation 725 == 5
  /\ 0 <= normalizedRotation (- (30))
  /\ normalizedRotation 334 == 334
  /\ normalizedRotation (Js.round 24.5) <= 25.
Proof.
  split; [vm_compute; reflexivity|]. split; [vm_compute; reflexivity|].
  split; [apply (proj1 normalizedRotation_in_range (- (30)))|].
  split; [apply (proj1 (proj2 normalizedRotation_in_range) 334 334%Z);
          [reflexivity | lia]|].
  destruct (proj1 (proj2 (proj2 normalizedRotation_in_range))
              (Js.round 24.5)) as [H _];
    [vm_compute; discriminate | vm_compute; reflexivity |].
  apply H. vm_compute. discriminate.
Defined.

(** ** The blinking beam *)

Lemma blink_running_step (e : Blink.Event) (h : positive) (m : nat)
      (c : Blink.Colour) (bg : Blink.Background) (nh : positive) :
  (m + Blink.fires h [e] <= 6)%nat ->
  Blink.step e (Blink.mkState true bg [Blink.mkInterval h m c] nh)
  = Blink.mkState true
      (match Blink.fires h [e] with
       | O => bg
       | S _ => if Nat.even m then Blink.Flash c else Blink.Transparent
       end)
      [Blink.mkInterval h (m + Blink.fires h [e]) c] nh.
Proof.
  destruct e as [c' | h']; cbn [Blink.step].
  - intros _. cbn. rewrite Nat.add_0_r. reflexivity.
  - unfold Blink.fire, Blink.fires. cbn -[Nat.leb Nat.even Nat.mul].
    destruct (Pos.eqb_spec h h') as [<- | Hne].
    + rewrite Pos.eqb_refl. cbn -[Nat.leb Nat.even Nat.mul]. intros Hm.
      change (Blink.maxBlinks * 2)%nat with 6%nat.
      destruct (Nat.leb_spec 6 m); [lia|].
      rewrite Nat.add_1_r. reflexivity.
    + assert (E : Pos.eqb h' h = false) by (apply Pos.eqb_neq; congruence).
      rewrite E. cbn. rewrite Nat.add_0_r. reflexivity.
Qed.

Lemma blink_fires_cons (h : positive) (e : Blink.Event)
      (es : list Blink.Event) :
  Blink.fires h (e :: es) = (Blink.fires h [e] + Blink.fires h es)%nat.
Proof.
  unfold Blink.fires. cbn. destruct e as [|h']; [reflexivity|].
  destruct (Pos.eqb h' h); reflexivity.
Qed.

Lemma blink_running (es : list Blink.Event) (h : positive) (m : nat)
      (c : Blink.Colour) (bg : Blink.Background) (nh : positive) :
  (m + Blink.fires h es <= 6)%nat ->
  Blink.run es (Blink.mkState true bg [Blink.mkInterval h m c] nh)
  = Blink.mkState true
      (match Blink.fires h es with
       | O => bg
       | S _ => Blink.shown bg c (m + Blink.fires h es)
       end)
      [Blink.mkInterval h (m + Blink.fires h es) c] nh.
Proof.
  revert m bg. induction es as [|e es IH]; intros m bg Hm.
  - cbn. rewrite Nat.add_0_r. reflexivity.
  - rewrite blink_fires_cons in *.
    change (Blink.run (e :: es) ?s) with (Blink.run es (Blink.step e s)).
    rewrite blink_running_step by lia. rewrite IH by lia.
    rewrite Nat.add_assoc. f_equal.
    destruct (Blink.fires h [e]) as [|k] eqn:Ee.
    + rewrite Nat.add_0_r. reflexivity.
    + assert (k = 0%nat).
      { unfold Blink.fires in Ee. cbn in Ee.
        destruct e as [|h']; [discriminate|].
        destruct (Pos.eqb h' h); cbn in Ee; [lia | discriminate]. }
      subst k. destruct (Blink.fires h es) as [|j]; cbn.
      * rewrite Nat.add_0_r, Nat.add_1_r. reflexivity.
      * replace (m + 1 + S j)%nat with (S (m + 1 + j)) by lia. reflexivity.
Qed.

(** X14. A blink runs its course whatever is asked meanwhile.  From an idle
    beam, [blinkBeam c] followed by any requests and by [n <= 6] callbacks
    of its interval leaves that one interval running in colour [c]; the
    beam shows [c] after callbacks 1, 3 and 5 and is transparent after 2, 4
    and 6.  The 7th callback puts the neutral gradient back, clears the
    interval and the flag. *)
Theorem blink_runs_its_course :
  forall (s : Blink.State) (c : Blink.Colour) (es : list Blink.Event),
    Blink.idle s ->
    (Blink.fires (Blink.nextHandle s) es <= 6)%nat ->
    let h := Blink.nextHandle s in
    let n := Blink.fires h es in
    let s' := Blink.run es (Blink.blinkBeam c s) in
    Blink.isBlinking s' = true
    /\ Blink.intervals s' = [Blink.mkInterval h n c]
    /\ Blink.background s' = Blink.shown (Blink.background s) c n
    /\ (n = 6%nat ->
        Blink.idle (Blink.fire h s')
        /\ Blink.background (Blink.fire h s') = Blink.Neutral).
Proof.
  intros [blk bg ivs nh] c es [Hb Hi] Hn h n s'. cbn in Hb, Hi, Hn, h.
  subst blk ivs. subst s'. unfold Blink.blinkBeam. cbn [Blink.isBlinking].
  cbn [Blink.background Blink.intervals Blink.nextHandle app].
  rewrite blink_running by (cbn; exact Hn). fold h. fold n. cbn [Nat.add].
  cbn [Blink.isBlinking Blink.intervals Blink.background].
  split; [reflexivity|]. split; [reflexivity|]. split.
  - destruct n; reflexivity.
  - intros En. rewrite En. subst h. unfold Blink.fire, Blink.idle.
    cbn [Blink.intervals find Blink.handle]. rewrite Pos.eqb_refl.
    cbn. rewrite Pos.eqb_refl. cbn. auto.
Qed.

Lemma blink_runs_its_course_witness :
  let s := Blink.mkState false Blink.Neutral [] 1 in
  let es := [Blink.Timer 1; Blink.Request Blink.Red; Blink.Timer 1;
             Blink.Timer 2; Blink.Timer 1] in
  Blink.idle s /\ (Blink.fires (Blink.nextHandle s) es <= 6)%nat
  /\ Blink.background (Blink.run es (Blink.blinkBeam Blink.Green s))
     = Blink.Flash Blink.Green
  /\ Blink.intervals (Blink.run es (Blink.blinkBeam Blink.Green s))
     = [Blink.mkInterval 1 3 Blink.Green].
Proof.
  intros s es.
  assert (Hi : Blink.idle s) by (split; reflexivity).
  assert (Hn : (Blink.fires (Blink.nextHandle s) es <= 6)%nat)
    by (vm_compute; lia).
  destruct (blink_runs_its_course s Blink.Green es Hi Hn)
    as (_ & Hiv & Hbg & _).
  split; [exact Hi|]. split; [exact Hn|].
  split; [rewrite Hbg | rewrite Hiv]; reflexivity.
Defined.

Lemma blink_step_inv (e : Blink.Event) (s : Blink.State) :
  (Blink.idle s
   \/ exists h m c, Blink.isBlinking s = true
                    /\ Blink.intervals s = [Blink.mkInterval h m c]
                    /\ (m <= 6)%nat) ->
  Blink.idle (Blink.step e s)
  \/ exists h m c, Blink.isBlinking (Blink.step e s) = true
                   /\ Blink.intervals (Blink.step e s)
                      = [Blink.mkInterval h m c]
                   /\ (m <= 6)%nat.
Proof.
  destruct s as [blk bg ivs nh]. unfold Blink.idle. cbn.
  intros [[-> ->] | (h & m & c & -> & -> & Hm)].
  - destruct e as [c | h]; cbn.
    + right. exists nh, 0%nat, c. repeat split; lia.
    + left. split; reflexivity.
  - destruct e as [c' | h']; cbn -[Nat.leb Nat.mul].
    + right. exists h, m, c. repeat split; lia.
    + unfold Blink.fire. cbn -[Nat.leb Nat.mul].
      change (Blink.maxBlinks * 2)%nat with 6%nat.
      destruct (Pos.eqb h h') eqn:E; cbn -[Nat.leb Nat.mul].
      * destruct (Nat.leb_spec 6 m); cbn; rewrite ?E; cbn.
        -- left. split; reflexivity.
        -- right. exists h', (S m), c. repeat split; lia.
      * right. exists h, m, c. repeat split; lia.
Qed.

(** X15. Starting from an idle beam, whatever is requested and whichever
    callbacks run, at most one interval is running, the flag [isBlinking]
    is set exactly while one is, and its counter never passes 6. *)
Theorem one_blink_at_a_time :
  forall (es : list Blink.Event) (s : Blink.State),
    Blink.idle s ->
    let s' := Blink.run es s in
    (length (Blink.intervals s') <= 1)%nat
    /\ (Blink.isBlinking s' = true <-> Blink.intervals s' <> [])
    /\ (forall i, In i (Blink.intervals s') ->
                  (Blink.blinkCount i <= 6)%nat).
Proof.
  intros es s Hi.
  assert (Hinv : Blink.idle (Blink.run es s)
                 \/ exists h m c,
                      Blink.isBlinking (Blink.run es s) = true
                      /\ Blink.intervals (Blink.run es s)
                         = [Blink.mkInterval h m c]
                      /\ (m <= 6)%nat).
  { assert (H0 : Blink.idle s
                 \/ exists h m c, Blink.isBlinking s = true
                      /\ Blink.intervals s = [Blink.mkInterval h m c]
                      /\ (m <= 6)%nat) by (left; exact Hi).
    clear Hi. revert s H0. induction es as [|e es IH]; intros s H0.
    - exact H0.
    - apply (IH (Blink.step e s)). apply blink_step_inv, H0. }
  cbv zeta. destruct Hinv as [[Hb Hv] | (h & m & c & Hb & Hv & Hm)];
    rewrite Hb, Hv.
  - split; [cbn; lia|]. split; [split; [discriminate | congruence]|].
    intros i [].
  - split; [cbn; lia|]. split; [split; [discriminate | reflexivity]|].
    intros i [<- | []]. exact Hm.
Qed.

Lemma one_blink_at_a_time_witness :
  let s := Blink.mkState false Blink.Neutral [] 1 in
  let es := [Blink.Request Blink.Green; Blink.Request Blink.Red;
             Blink.Timer 1; Blink.Timer 1; Blink.Timer 1; Blink.Timer 1;
             Blink.Timer 1; Blink.Timer 1; Blink.Timer 1;
             Blink.Request Blink.Red; Blink.Request Blink.Green] in
  Blink.idle s
  /\ (length (Blink.intervals (Blink.run es s)) <= 1)%nat
  /\ Blink.intervals (Blink.run es s) = [Blink.mkInterval 2 0 Blink.Red].
Proof.
  intros s es.
  assert (Hi : Blink.idle s) by (split; reflexivity).
  split; [exact Hi|]. split; [|reflexivity].
  apply (one_blink_at_a_time es s Hi).
Defined.

Lemma vibrate_log (p : list Z) (f : Feedback) :
  beam (vibrate p f) = beam f
  /\ canVibrate (vibrate p f) = canVibrate f
  /\ vibrations (vibrate p f)
     = vibrations f ++ (if canVibrate f then [p] else []).
Proof.
  unfold vibrate. destruct (canVibrate f) eqn:E; cbn; rewrite ?E, ?app_nil_r;
    auto.
Qed.

(** X16. The feedback of a miss can be swallowed.  After a hit on an idle
    beam the green blink is running; a miss scored before that blink's 7th
    callback asks for red while [isBlinking] is set, so the beam goes on
    blinking green.  The vibration of the miss is made all the same where
    the browser can vibrate: the double pulse of the hit, then the long
    one. *)
Theorem miss_during_green_blink_stays_green :
  forall (f : Feedback) (r1 r2 : Q) (es : list Blink.Event),
    Blink.idle (beam f) ->
    isInTargetZone r1 = true -> isInTargetZone r2 = false ->
    (Blink.fires (Blink.nextHandle (beam f)) es <= 6)%nat ->
    let f' := checkHitFeedback r2 (beamEvents es (checkHitFeedback r1 f)) in
    Blink.intervals (beam f')
    = [Blink.mkInterval (Blink.nextHandle (beam f))
                        (Blink.fires (Blink.nextHandle (beam f)) es)
                        Blink.Green]
    /\ vibrations f'
       = vibrations f
         ++ (if canVibrate f then [[100; 50; 100]; [500]]%Z else []).
Proof.
  intros f r1 r2 es Hi H1 H2 Hn. cbv zeta.
  unfold checkHitFeedback. rewrite H1, H2.
  destruct (vibrate_log [500]%Z
              (blink Blink.Red
                 (beamEvents es
                    (vibrate [100; 50; 100]%Z (blink Blink.Green f)))))
    as (Eb & _ & Ev).
  destruct (vibrate_log [100; 50; 100]%Z (blink Blink.Green f))
    as (Eb1 & Ec1 & Ev1).
  rewrite Eb, Ev. cbn [beam canVibrate vibrations blink beamEvents] in *.
  rewrite Eb1, Ec1, Ev1.
  split.
  - destruct f as [[blk bg ivs nh] cv vs]. destruct Hi as [Hb Hv].
    cbn in Hb, Hv, Hn |- *. subst blk ivs.
    unfold Blink.blinkBeam at 2. cbn [Blink.isBlinking].
    cbn [Blink.background Blink.intervals Blink.nextHandle app].
    rewrite blink_running by (cbn; exact Hn). reflexivity.
  - cbn. destruct (canVibrate f); rewrite <- ?app_assoc, ?app_nil_r;
      reflexivity.
Qed.

Lemma miss_during_green_blink_stays_green_witness :
  let f := mkFeedback (Blink.mkState false Blink.Neutral [] 1) true [] in
  let es := [Blink.Timer 1; Blink.Timer 1; Blink.Timer 1] in
  Blink.idle (beam f) /\ isInTargetZone 4 = true
  /\ isInTargetZone 100 = false
  /\ (Blink.fires (Blink.nextHandle (beam f)) es <= 6)%nat
  /\ Blink.intervals
       (beam (checkHitFeedback 100 (beamEvents es (checkHitFeedback 4 f))))
     = [Blink.mkInterval 1 3 Blink.Green]
  /\ vibrations
       (checkHitFeedback 100 (beamEvents es (checkHitFeedback 4 f)))
     = [[100; 50; 100]; [500]]%Z.
Proof.
  intros f es.
  assert (Hi : Blink.idle (beam f)) by (split; reflexivity).
  assert (H1 : isInTargetZone 4 = true) by (vm_compute; reflexivity).
  assert (H2 : isInTargetZone 100 = false) by (vm_compute; reflexivity).
  assert (Hn : (Blink.fires (Blink.nextHandle (beam f)) es <= 6)%nat)
    by (vm_compute; lia).
  destruct (miss_during_green_blink_stays_green f 4 100 es Hi H1 H2 Hn)
    as [Hiv Hvib].
  split; [exact Hi|]. split; [exact H1|]. split; [exact H2|].
  split; [exact Hn|]. split; [rewrite Hiv | rewrite Hvib]; reflexivity.
Defined.

(** X17. Play Again tears the running game down whatever its state: after
    [restartGame] in a reachable world no frame is pending and no listener
    is registered, the welcome message is shown, the screen reads 3 lives,
    0 points and rotation 0, and both start gestures are armed again. *)
Theorem restart_tears_down :
  forall w : World,
    reachable w ->
    let w' := restartGame w in
    frameRequests (page w') = []
    /\ orientationListeners (page w') = []
    /\ messageShown (page w') = true /\ messageHTML (page w') = Welcome
    /\ livesText (page w') = 3%Z /\ pointsText (page w') = 0%Z
    /\ transform (page w') = 0
    /\ clickArmed w' = true /\ touchArmed w' = true.
Proof.
  intros w Hr w'. pose proof (reachable_lifecycle w Hr) as H.
  destruct (restartGame_waiting w H) as (Hlc & Hc & Ht & g & Hg & W).
  fold w' in Hlc, Hc, Ht, Hg, W.
  unfold LifeCycle in Hlc. rewrite Hg in Hlc.
  destruct Hlc as ((Dl & Dp & Dt) & _).
  destruct W as (Eg & El & Ef & Es & Em).
  rewrite Dl, Dp, Dt, Eg. cbn. repeat split; assumption.
Qed.

Lemma restart_tears_down_witness :
  let w := run [Click NotRequired; AnimationFrame 1;
                DeviceOrientation (Js.Num 10) 1000 1000;
                DeviceOrientation (Js.Num 30) 1300 1300] loaded in
  reachable w
  /\ frameRequests (page w) = [(2%positive, 0%nat)]
  /\ orientationListeners (page w) = [0%nat]
  /\ frameRequests (page (restartGame w)) = []
  /\ orientationListeners (page (restartGame w)) = [].
Proof.
  intros w.
  assert (Hr : reachable w) by (apply reachable_run; constructor).
  destruct (restart_tears_down w Hr) as (Hf & Hl & _).
  split; [exact Hr|]. split; [reflexivity|]. split; [reflexivity|].
  split; [exact Hf | exact Hl].
Defined.

(** ** Speed and rotation in double arithmetic *)

Section Binary64.

Import PrimFloat.
#[local] Set Warnings "-inexact-float".

(** On the numbers of the game [Js.round] gives what binary64 arithmetic
    gives: the literal 0.7, the first three speeds above the base speed,
    three ticks at speed 4.7, the movement from 0.9999999999999999 to 9,
    and the sum that normalises the double just below 335. *)
Lemma round_agrees_with_binary64 :
  Js.ofFloat 0.7%float = Some (Js.round 0.7)
  /\ Js.ofFloat (4 + 0.7)%float = Some (levelSpeed 1)
  /\ Js.ofFloat (4 + 0.7 + 0.7)%float = Some (levelSpeed 2)
  /\ Js.ofFloat (4 + 0.7 + 0.7 + 0.7)%float = Some (levelSpeed 3)
  /\ Js.ofFloat (0 + 4.7 + 4.7 + 4.7)%float
     = Some (Js.add (Js.add (Js.add 0 (levelSpeed 1)) (levelSpeed 1))
                    (levelSpeed 1))
  /\ Js.ofFloat (9 - 0.9999999999999999)%float
     = Some (Js.sub 9 (Js.round 0.9999999999999999))
  /\ Js.ofFloat (334.99999999999994 + 360)%float
     = Some (Js.add (335 - Js.pow2 (- 44)) 360).
Proof. vm_compute. repeat split. Qed.

End Binary64.







Lemma call_points_monotone (c : Callback) (s : St) :
  (points (fst s) <= points (fst (call c s)))%Z.
Proof.
  destruct c as [|beta now1 now2]; cbn [call].
  - destruct (gameLoop_score s) as (E & _). lia.
  - pose proof (handleMotion_score_step beta now1 now2 s) as H.
    cbv zeta in H. unfold wasHit, wasMiss in H.
    destruct H as [[E _] | [[E _] | [_ E]]]; lia.
Qed.

Lemma calls_points_monotone (cs : list Callback) (s : St) :
  (points (fst s) <= points (fst (calls cs s)))%Z.
Proof.
  revert s. induction cs as [|c cs IH]; intros s; [cbn; lia|].
  rewrite calls_cons. pose proof (call_points_monotone c s).
  specialize (IH (call c s)). lia.
Qed.

(** Before the fifth point every tick advances by the base speed. *)
Lemma base_speed_ticks (cs : list Callback) (s : St) :
  speed (fst s) = 4 -> (0 <= points (fst s))%Z ->
  isGameOver (fst (calls cs s)) = false ->
  (points (fst (calls cs s)) < 5)%Z ->
  forallb whole (tickSpeeds cs s) = true.
Proof.
  revert s. induction cs as [|c cs IH]; intros s Hs Hp Hrun Hlt;
    [reflexivity|].
  pose proof (calls_running_head c cs s Hrun) as Hc.
  destruct (call_running c s Hc) as (Ho & _ & Hspeed).
  rewrite (tickSpeeds_cons c cs s Ho). rewrite calls_cons in *.
  pose proof (call_points_monotone c s) as Hm.
  pose proof (calls_points_monotone cs (call c s)) as Hms.
  assert (Hs' : speed (fst (call c s)) = 4).
  { destruct Hspeed as [[[[Eh _] Er] _] | [_ E]]; [|congruence].
    exfalso. rewrite Eh in Er.
    assert (5 <= points (fst s) + 1)%Z
      by (Z.to_euclidean_division_equations; lia).
    lia. }
  specialize (IH (call c s) Hs' ltac:(lia) Hrun Hlt).
  destruct c; [|exact IH].
  cbn [forallb]. rewrite IH, Hs. reflexivity.
Qed.

(** The rotation of a running game is what the loop makes of it: each tick
    adds its speed, rounds, and takes the remainder. *)
Lemma calls_rotation_fold (cs : list Callback) (s : St) :
  isGameOver (fst (calls cs s)) = false ->
  rotation (fst (calls cs s))
  = fold_left (fun r v => Js.rem (Js.add r v) 360) (tickSpeeds cs s)
              (rotation (fst s)).
Proof.
  revert s. induction cs as [|c cs IH]; intros s Hrun; [reflexivity|].
  pose proof (calls_running_head c cs s Hrun) as Hc.
  destruct (call_running c s Hc) as (Ho & Hrot & _).
  rewrite (tickSpeeds_cons c cs s Ho). rewrite calls_cons in *.
  rewrite (IH _ Hrun), Hrot. destruct c; reflexivity.
Qed.

(** C5.  The rotation of a running game is got from the speeds its ticks
    advanced by: each is added in turn, the sum rounded to a double and
    reduced modulo 360.  From rotation 0 this is the sum of those speeds
    modulo 360 as long as they are whole numbers, as the base speed 4 is:
    so it is after [start] as long as fewer than 5 points are scored.  In
    every reachable world the rotation lies in [0, 360). *)
Theorem rotation_is_sum_of_tick_speeds :
  (forall (cs : list Callback) (s : St),
      isGameOver (fst (calls cs s)) = false ->
      rotation (fst (calls cs s))
      = fold_left (fun r v => Js.rem (Js.round (r + v)) 360)
                  (tickSpeeds cs s) (rotation (fst s)))
  /\ (forall (cs : list Callback) (s : St),
        rotation (fst s) == 0 ->
        forallb whole (tickSpeeds cs s) = true ->
        isGameOver (fst (calls cs s)) = false ->
        rotation (fst (calls cs s)) == Js.rem (Qsum (tickSpeeds cs s)) 360)
  /\ (forall (cs : list Callback) (s0 : St),
        isGameOver (fst (calls cs (start s0))) = false ->
        (points (fst (calls cs (start s0))) < 5)%Z ->
        rotation (fst (calls cs (start s0)))
        == Js.rem (Qsum (4 :: tickSpeeds cs (start s0))) 360)
  /\ (forall (w : World) (g : Game),
        reachable w -> currentGame w = Some g ->
        0 <= rotation g /\ rotation g < 360).
Proof.
  assert (Hzero : forall (cs : list Callback) (s : St),
      rotation (fst s) == 0 ->
      forallb whole (tickSpeeds cs s) = true ->
      isGameOver (fst (calls cs s)) = false ->
      rotation (fst (calls cs s)) == Js.rem (Qsum (tickSpeeds cs s)) 360).
  { intros cs s H0 Hw Hrun.
    destruct (calls_rotation cs s 0) as [Hnn Heq];
      try assumption; try lia.
    rewrite Heq. apply rem_eq_compat; lra. }
  split; [exact calls_rotation_fold|]. split; [exact Hzero|]. split.
  - intros cs s0 Hrun Hlt.
    destruct (start_first_tick s0) as (r & Es & _ & Hr & Hs & _ & Hp & Ho).
    rewrite Es in *.
    change (calls cs (gameLoop r)) with (calls (Tick :: cs) r) in *.
    assert (Hw : forallb whole (tickSpeeds (Tick :: cs) r) = true).
    { apply base_speed_ticks; [exact Hs | lia | exact Hrun | exact Hlt]. }
    rewrite (Hzero (Tick :: cs) r);
      [|rewrite Hr; reflexivity | exact Hw | exact Hrun].
    cbn [tickSpeeds call]. rewrite Ho, Hs. reflexivity.
  - intros w g Hr Hg. pose proof (reachable_inv w Hr) as H.
    unfold WorldInv in H. rewrite Hg in H. destruct H. split; assumption.
Qed.

Lemma rotation_is_sum_of_tick_speeds_witness :
  let s := construct 0 blankPage in
  let cs := repeat Tick 91 in
  rotation (fst s) == 0
  /\ forallb whole (tickSpeeds cs s) = true
  /\ isGameOver (fst (calls cs s)) = false
  /\ rotation (fst (calls cs s)) == Js.rem (Qsum (tickSpeeds cs s)) 360
  /\ Qsum (tickSpeeds cs s) == 364
  /\ Js.rem (Qsum (tickSpeeds cs s)) 360 == 4
  /\ let w := run [Click NotRequired; AnimationFrame 1; AnimationFrame 2]
                  loaded in
     reachable w
     /\ match currentGame w with
        | Some g => rotation g == 12 /\ 0 <= rotation g /\ rotation g < 360
        | None => False
        end.
Proof.
  intros s cs.
  assert (H : rotation (fst (calls cs s))
              == Js.rem (Qsum (tickSpeeds cs s)) 360).
  { apply (proj1 (proj2 rotation_is_sum_of_tick_speeds));
      [reflexivity | vm_compute; reflexivity | vm_compute; reflexivity]. }
  split; [reflexivity|]. split; [vm_compute; reflexivity|].
  split; [vm_compute; reflexivity|]. split; [exact H|].
  split; [vm_compute; reflexivity|]. split; [vm_compute; reflexivity|].
  intros w.
  assert (Hr : reachable w) by (apply reachable_run; constructor).
  split; [exact Hr|].
  destruct (currentGame w) as [g|] eqn:E; [|vm_compute in E; discriminate].
  pose proof (proj2 (proj2 (proj2 rotation_is_sum_of_tick_speeds)) w g Hr E)
    as Hrange.
  split; [|exact Hrange].
  vm_compute in E. injection E as <-. reflexivity.
Defined.

(** C5 as stated fails once the speed has a fractional part.  A game is
    brought back to rotation 0 and then scores 5 points, so that its speed is
    the double 4.7.  Three ticks later the rotation is 14.100000000000001,
    which is not three times that speed; and after 80 ticks, when the
    rotation has passed 360 once, it is 15.999999999999524: neither the
    exact sum of the 80 speeds modulo 360 nor their sum in doubles modulo
    360, which is 15.999999999999488. *)
Lemma rotation_is_not_the_sum_of_fractional_speeds :
  let s := calls (repeat Tick 89
                  ++ [Tilt (Js.Num 10) 1000 1000; Tilt (Js.Num 30) 1300 1300;
                      Tilt (Js.Num 50) 1600 1600; Tilt (Js.Num 70) 1900 1900;
                      Tilt (Js.Num 90) 2200 2200;
                      Tilt (Js.Num 110) 2500 2500])
                 (start (construct 0 blankPage)) in
  let three := repeat Tick 3 in
  let lap := repeat Tick 80 in
  (rotation (fst s) == 0 /\ speed (fst s) = Js.round 4.7
   /\ isGameOver (fst (calls three s)) = false
   /\ isGameOver (fst (calls lap s)) = false)
  /\ rotation (fst (calls three s)) = Js.round 14.100000000000001
  /\ ~ rotation (fst (calls three s))
       == Js.rem (Qsum (tickSpeeds three s)) 360
  /\ rotation (fst (calls lap s)) = Js.round 15.999999999999524
  /\ Js.rem (sumOf (tickSpeeds lap s)) 360 == Js.round 15.999999999999488
  /\ ~ rotation (fst (calls lap s)) == Js.rem (Qsum (tickSpeeds lap s)) 360
  /\ ~ rotation (fst (calls lap s)) == Js.rem (sumOf (tickSpeeds lap s)) 360.
Proof.
  vm_compute. repeat split; try reflexivity; discriminate.
Qed.
